(** * The barbershop village simulation of [task_4.py]

    A shallow embedding of class [Village] with its nested classes
    [Resident] and [Barber], and of the script entry point.

    Python objects live in a heap addressed by references, so that object
    identity ([resident is self]) and aliasing (one object reachable from
    several places of [Village.residents]) are those of the program.
    Methods are computations in a state-and-exception monad over a
    [world]: the heap, the lines written to standard output, and the
    pending interrupt of the environment, if any.

    Clock values are Python [int]s, as the script entry point supplies
    them; they are modelled by [Z]. *)

From Stdlib Require Import ZArith Lia List Bool Sorted.
From stdpp Require Import base list strings pretty.

Local Open Scope Z_scope.

(** ** Objects *)

(** References are addresses in the heap. *)
Abbreviation ref := nat (only parsing).

(** Attributes set by [Resident.__init__]. *)
Record ResidentAttrs := {
  __name : string;
  __beard_growth_time : Z;
  __last_shave_time : Z
}.

(** Attributes added by [Barber.__init__]. *)
Record BarberAttrs := {
  __shave_time : Z;
  __busy_till : Z
}.

(** An object is an instance of [Village.Resident] or of its subclass
    [Village.Barber]. *)
Inductive object :=
| Resident (r : ResidentAttrs)
| Barber (r : ResidentAttrs) (b : BarberAttrs).

Definition attrs (o : object) : ResidentAttrs :=
  match o with
  | Resident r => r
  | Barber r _ => r
  end.

(** [isinstance(o, Village.Barber)] *)
Definition isinstance_Barber (o : object) : bool :=
  match o with
  | Resident _ => false
  | Barber _ _ => true
  end.

Definition with_last_shave_time (o : object) (time : Z) : object :=
  let r := attrs o in
  let r' := {| __name := __name r;
               __beard_growth_time := __beard_growth_time r;
               __last_shave_time := time |} in
  match o with
  | Resident _ => Resident r'
  | Barber _ b => Barber r' b
  end.

(** ** Standard output

    One constructor per [print] statement of [Barber.shave]; [text] is what
    the statement writes. *)
Inductive print_call :=
| print_shaves (time : Z) (barber resident : string)
| print_himself
| print_late
| print_newline.

Definition text (p : print_call) : string :=
  match p with
  | print_shaves time barber resident =>
      pretty time +:+ ": barber " +:+ barber +:+ " shaves inhabitant "
        +:+ resident +:+ "."
  | print_himself => " Barber shaves himself!"
  | print_late => " Barber is late for the shave!"
  | print_newline => String (Ascii.ascii_of_nat 10) EmptyString
  end.

Definition render (out : list print_call) : string :=
  fold_right (fun p s => text p +:+ s) EmptyString out.

(** ** Worlds, exceptions and the monad *)

Inductive exn :=
| ValueError_min_empty      (* ValueError: min() arg is an empty sequence *)
| AttributeError (attr : string)
| KeyboardInterrupt
| Unallocated.              (* a reference outside the heap; no Python
                               program can build one *)

Inductive result (A : Type) :=
| Ok (a : A)
| Raise (e : exn).
Arguments Ok {A} a.
Arguments Raise {A} e.

(** [sigint = Some k]: the environment delivers one interrupt, at the
    [k]-th statement boundary from now; [None]: no interrupt comes. *)
Record world := {
  heap : list object;
  stdout : list print_call;
  sigint : option nat
}.

Definition M (A : Type) : Type := world -> result A * world.

Definition ret {A} (a : A) : M A := fun w => (Ok a, w).

Definition raise {A} (e : exn) : M A := fun w => (Raise e, w).

Definition bind {A B} (m : M A) (f : A -> M B) : M B :=
  fun w =>
    match m w with
    | (Ok a, w') => f a w'
    | (Raise e, w') => (Raise e, w')
    end.

Notation "'let*' x ':=' m 'in' k" := (bind m (fun x => k))
  (at level 10, x name, m at level 100, k at level 200).
Notation "m >> k" := (bind m (fun _ => k))
  (at level 80, right associativity).

(** The interpreter looks for a pending interrupt before a statement
    runs; [KeyboardInterrupt] is raised there when one is due. *)
Definition checkpoint : M unit :=
  fun w =>
    match sigint w with
    | None => (Ok tt, w)
    | Some O =>
        (Raise KeyboardInterrupt,
         {| heap := heap w; stdout := stdout w; sigint := None |})
    | Some (S k) =>
        (Ok tt, {| heap := heap w; stdout := stdout w; sigint := Some k |})
    end.

(** A statement: the check for an interrupt, then its effect. *)
Definition stmt {A} (m : M A) : M A := checkpoint >> m.

Definition load (r : ref) : M object :=
  fun w =>
    match heap w !! r with
    | Some o => (Ok o, w)
    | None => (Raise Unallocated, w)
    end.

Definition store (r : ref) (o : object) : M unit :=
  fun w =>
    (Ok tt, {| heap := <[r := o]> (heap w);
               stdout := stdout w;
               sigint := sigint w |}).

Definition alloc (o : object) : M ref :=
  fun w =>
    (Ok (length (heap w)),
     {| heap := heap w ++ [o]; stdout := stdout w; sigint := sigint w |}).

Definition print (p : print_call) : M unit :=
  fun w =>
    (Ok tt, {| heap := heap w;
               stdout := stdout w ++ [p];
               sigint := sigint w |}).

(** ** Built-ins *)

(** [max(a, b)]: the first of the largest arguments. *)
Definition py_max (a b : Z) : Z := if a <? b then b else a.

(** [min(iterable, key=key)]: the first item whose key is smallest;
    [ValueError] on an empty iterable. *)
Fixpoint min_scan {A} (key : A -> M Z) (best : A) (best_key : Z)
    (l : list A) : M A :=
  match l with
  | [] => ret best
  | x :: l' =>
      let* k := key x in
      if k <? best_key then min_scan key x k l'
      else min_scan key best best_key l'
  end.

Definition py_min {A} (key : A -> M Z) (l : list A) : M A :=
  match l with
  | [] => raise ValueError_min_empty
  | x :: l' => let* k := key x in min_scan key x k l'
  end.

(** ** class Resident *)

Definition Resident__init__ (name : string) (beard_growth_time : Z) : M ref :=
  alloc (Resident {| __name := name;
                     __beard_growth_time := beard_growth_time;
                     __last_shave_time := 0 |}).

Definition __str__ (self : ref) : M string :=
  let* o := load self in ret (__name (attrs o)).

Definition _get_next_shave_time (self : ref) : M Z :=
  let* o := load self in
  ret (__last_shave_time (attrs o) + __beard_growth_time (attrs o)).

Definition set_last_shave_time (self : ref) (time : Z) : M unit :=
  let* o := load self in store self (with_last_shave_time o time).

(** ** class Barber(Resident) *)

Definition Barber__init__ (name : string) (beard_growth_time shave_time : Z)
    : M ref :=
  alloc (Barber {| __name := name;
                   __beard_growth_time := beard_growth_time;
                   __last_shave_time := 0 |}
                {| __shave_time := shave_time; __busy_till := 0 |}).

(** Attribute access on a [Barber]; an instance of plain [Resident] has
    neither the attributes nor the methods. *)
Definition barber_attrs (attr : string) (self : ref) : M BarberAttrs :=
  let* o := load self in
  match o with
  | Resident _ => raise (AttributeError attr)
  | Barber _ b => ret b
  end.

Definition busy_till (self : ref) : M Z :=
  let* b := barber_attrs "busy_till" self in ret (__busy_till b).

Definition set__busy_till (self : ref) (value : Z) : M unit :=
  let* o := load self in
  match o with
  | Resident _ => raise (AttributeError "__busy_till")
  | Barber r b =>
      store self (Barber r {| __shave_time := __shave_time b;
                              __busy_till := value |})
  end.

(** [self.shave(time, resident)].  The method is found on a [Barber]
    only; each statement of the body is a place where a pending interrupt
    is raised. *)
Definition shave (self : ref) (time : Z) (resident : ref) : M unit :=
  barber_attrs "shave" self >>
  stmt (let* b := __str__ self in
        let* r := __str__ resident in
        print (print_shaves time b r)) >>
  stmt (if Nat.eqb resident self then print print_himself else ret tt) >>
  stmt (let* due := _get_next_shave_time resident in
        if negb (time =? due) then print print_late else ret tt) >>
  stmt (print print_newline) >>
  stmt (let* b := barber_attrs "__shave_time" self in
        set__busy_till self (time + __shave_time b)) >>
  stmt (let* b := barber_attrs "__busy_till" self in
        set_last_shave_time resident (__busy_till b)).

(** ** class Village *)

Record Village := { residents : list ref }.

Definition Village__init__ : Village := {| residents := [] |}.

Definition add_resident (self : Village) (resident : ref) : Village :=
  {| residents := residents self ++ [resident] |}.

Definition get_next_shave (self : Village) : M ref :=
  py_min _get_next_shave_time (residents self).

(** [[r for r in self.residents if isinstance(r, Village.Barber)]] *)
Fixpoint barbers_of (l : list ref) : M (list ref) :=
  match l with
  | [] => ret []
  | r :: l' =>
      let* o := load r in
      let* rest := barbers_of l' in
      ret (if isinstance_Barber o then r :: rest else rest)
  end.

Definition get_next_free_barber (self : Village) : M ref :=
  let* bs := barbers_of (residents self) in py_min busy_till bs.

(** The test at the head of the generator [__range]: [true] when it
    breaks instead of yielding [i]. *)
Definition __range_done (count i : Z) : bool :=
  negb (count =? -1) && (i >=? count).

(** The body of the [for] loop of [run]. *)
Definition loop_body (self : Village) : M unit :=
  let* resident := stmt (get_next_shave self) in
  let* barber := stmt (get_next_free_barber self) in
  let* time := stmt (let* a := _get_next_shave_time resident in
                     let* b := busy_till barber in
                     ret (py_max a b)) in
  shave barber time resident.

(** The [for] loop over [__range(count)], [i] being the generator's
    counter.  [None]: the loop is still running when the fuel is spent. *)
Fixpoint run_loop (fuel : nat) (self : Village) (count i : Z) (w : world)
    : option (result unit * world) :=
  match fuel with
  | O => None
  | S fuel' =>
      match checkpoint w with
      | (Raise e, w1) => Some (Raise e, w1)
      | (Ok _, w1) =>
          if __range_done count i then Some (Ok tt, w1)
          else
            match loop_body self w1 with
            | (Raise e, w2) => Some (Raise e, w2)
            | (Ok _, w2) => run_loop fuel' self count (i + 1) w2
            end
      end
  end.

(** [try: ... except KeyboardInterrupt: pass] around the loop. *)
Definition run (fuel : nat) (self : Village) (count : Z) (w : world)
    : option (result unit * world) :=
  match run_loop fuel self count 0 w with
  | Some (Raise KeyboardInterrupt, w') => Some (Ok tt, w')
  | other => other
  end.

(** ** Script entry point *)

Definition main_village : M Village :=
  let village := Village__init__ in
  let* r1 := Resident__init__ "r1" 2 in
  let village := add_resident village r1 in
  let* r2 := Resident__init__ "r2" 4 in
  let village := add_resident village r2 in
  let* b1 := Barber__init__ "b1" 6 1 in
  let village := add_resident village b1 in
  ret village.

Definition main (fuel : nat) (w : world) : option (result unit * world) :=
  match main_village w with
  | (Ok village, w') => run fuel village 20 w'
  | (Raise e, w') => Some (Raise e, w')
  end.

Definition empty_world : world :=
  {| heap := []; stdout := []; sigint := None |}.

(** * Vocabulary of the properties *)

(** The next shave time of an object, as [_get_next_shave_time] computes
    it. *)
Definition due (o : object) : Z :=
  __last_shave_time (attrs o) + __beard_growth_time (attrs o).

(** What one complete call of [shave] writes. *)
Definition shave_lines (time : Z) (self resident : ref) (rb : ResidentAttrs)
    (o : object) : list print_call :=
  [print_shaves time (__name rb) (__name (attrs o))]
    ++ (if Nat.eqb resident self then [print_himself] else [])
    ++ (if negb (time =? due o) then [print_late] else [])
    ++ [print_newline].

(** The heap after one complete call of [shave]. *)
Definition shave_heap (h : list object) (time : Z) (self resident : ref)
    (rb : ResidentAttrs) (bb : BarberAttrs) : list object :=
  let free := time + __shave_time bb in
  let h1 := <[self := Barber rb {| __shave_time := __shave_time bb;
                                   __busy_till := free |}]> h in
  match h1 !! resident with
  | Some o1 => <[resident := with_last_shave_time o1 free]> h1
  | None => h1
  end.

(** The first item of [best :: l] whose key is smallest. *)
Fixpoint first_min {A} (key : A -> Z) (best : A) (l : list A) : A :=
  match l with
  | [] => best
  | x :: l' =>
      if key x <? key best then first_min key x l' else first_min key best l'
  end.

(** Every reference of [l] points into the heap of [w]. *)
Definition allocated (w : world) (l : list ref) : Prop :=
  forall r, r ∈ l -> is_Some (heap w !! r).

(** Next shave time, class and [busy_till] of the object at a
    reference. *)
Definition due_at (h : list object) (r : ref) : Z :=
  from_option due 0 (h !! r).

Definition barber_at (h : list object) (r : ref) : bool :=
  from_option isinstance_Barber false (h !! r).

Definition busy_at (h : list object) (r : ref) : Z :=
  match h !! r with
  | Some (Barber _ b) => __busy_till b
  | _ => 0
  end.

(** Name, beard growth time, class and shave duration of an object. *)
Definition static (o : object) : string * Z * option Z :=
  (__name (attrs o), __beard_growth_time (attrs o),
   match o with
   | Resident _ => None
   | Barber _ b => Some (__shave_time b)
   end).

(** The objects of [h'] are those of [h] up to their clocks. *)
Definition same_static (h h' : list object) : Prop :=
  forall x, static <$> (h' !! x) = static <$> (h !! x).

(** No interrupt is pending, every resident of the village is an object of
    the heap, and one of them is a barber. *)
Definition ready (self : Village) (w : world) : Prop :=
  sigint w = None
  /\ allocated w (residents self)
  /\ exists b, b ∈ residents self /\ barber_at (heap w) b = true.

(** [w'] is [w] after the shave of [resident], the object [o], by [barber],
    the object [Barber rb bb], at the later of the due time and the time the
    barber is free. *)
Definition shaved (w : world) (resident barber : ref) (o : object)
    (rb : ResidentAttrs) (bb : BarberAttrs) (w' : world) : Prop :=
  let time := Z.max (due o) (__busy_till bb) in
  heap w !! resident = Some o
  /\ heap w !! barber = Some (Barber rb bb)
  /\ w' = {| heap := shave_heap (heap w) time barber resident rb bb;
             stdout := stdout w ++ shave_lines time barber resident rb o;
             sigint := None |}.

(** [n] iterations, one after the other. *)
Fixpoint repeat_body (n : nat) (self : Village) : M unit :=
  match n with
  | O => ret tt
  | S n' => loop_body self >> repeat_body n' self
  end.

(** The number of shave events recorded on standard output. *)
Definition shaves_logged (out : list print_call) : nat :=
  length (List.filter (fun p => match p with
                                | print_shaves _ _ _ => true
                                | _ => false
                                end) out).

(** The world [w] with an interrupt due at the [k]-th statement from
    now. *)
Definition interrupt_at (k : nat) (w : world) : world :=
  {| heap := heap w; stdout := stdout w; sigint := Some k |}.

(** The outcome is [KeyboardInterrupt], or a normal one in a world that
    satisfies [P]. *)
Definition interrupted_or (P : world -> Prop) (x : result unit * world)
    : Prop :=
  match x with
  | (Raise e, _) => e = KeyboardInterrupt
  | (Ok _, w') => P w'
  end.

(** The village and the world that the script entry point builds. *)
Definition script_village : Village :=
  match main_village empty_world with
  | (Ok village, _) => village
  | (Raise _, _) => Village__init__
  end.

Definition script_world : world := snd (main_village empty_world).

(** The two clocks of an object; a plain resident has no [busy_till]. *)
Definition last_of (o : object) : Z := __last_shave_time (attrs o).

Definition busy_of (o : object) : Z :=
  match o with
  | Resident _ => 0
  | Barber _ b => __busy_till b
  end.

(** Beard growth times and shave durations in the village are strictly
    positive. *)
Definition positive (self : Village) (w : world) : Prop :=
  forall r o, r ∈ residents self -> heap w !! r = Some o ->
    0 < __beard_growth_time (attrs o)
    /\ forall rb bb, o = Barber rb bb -> 0 < __shave_time bb.

(** No clock of [h'] is behind the same clock of [h]. *)
Definition advanced (h h' : list object) : Prop :=
  forall x o o', h !! x = Some o -> h' !! x = Some o' ->
    last_of o <= last_of o' /\ busy_of o <= busy_of o'.

(** No resident of the village is a barber. *)
Definition no_barber (self : Village) (w : world) : Prop :=
  forall r, r ∈ residents self -> barber_at (heap w) r = false.

(** A village of one plain resident. *)
Definition lonely_world : world :=
  snd (Resident__init__ "r1" 2 empty_world).

Definition lonely_village : Village := add_resident Village__init__ 0%nat.

(** Two residents due at the same time, two barbers free at the same
    time: the earlier of each pair is selected. *)
Definition twins_world : world :=
  {| heap := [Resident {| __name := "a"; __beard_growth_time := 3;
                          __last_shave_time := 0 |};
              Resident {| __name := "b"; __beard_growth_time := 3;
                          __last_shave_time := 0 |};
              Barber {| __name := "c"; __beard_growth_time := 9;
                        __last_shave_time := 0 |}
                     {| __shave_time := 1; __busy_till := 0 |};
              Barber {| __name := "d"; __beard_growth_time := 9;
                        __last_shave_time := 0 |}
                     {| __shave_time := 1; __busy_till := 0 |}];
     stdout := [];
     sigint := None |}.

(** From [w] to [w'] the heap kept its objects up to their clocks, and
    standard output was only appended to. *)
Definition grows (w w' : world) : Prop :=
  same_static (heap w) (heap w')
  /\ exists out, stdout w' = stdout w ++ out.

(** Whatever the outcome, the computation only moves clocks and only
    appends to standard output. *)
Definition framed {A} (m : M A) : Prop := forall w, grows w (snd (m w)).

(** The times of the shave events on standard output, in the order they
    were written. *)
Definition logged_times (out : list print_call) : list Z :=
  flat_map (fun p => match p with
                     | print_shaves time _ _ => [time]
                     | _ => []
                     end) out.

(** The time at which the next iteration of the loop shaves. *)
Definition next_time (self : Village) (w : world) : Z :=
  match get_next_shave self w, get_next_free_barber self w with
  | (Ok r, _), (Ok b, _) => py_max (due_at (heap w) r) (busy_at (heap w) b)
  | _, _ => 0
  end.

(** [h'] is the heap of [w] in the middle of its next shave: the barber's
    [busy_till] is already set, the resident's last shave time not yet. *)
Definition half_shaved (self : Village) (w : world) (h' : list object)
    : Prop :=
  exists resident barber due_time rb bb,
    get_next_shave self w = (Ok resident, w)
    /\ get_next_free_barber self w = (Ok barber, w)
    /\ _get_next_shave_time resident w = (Ok due_time, w)
    /\ heap w !! barber = Some (Barber rb bb)
    /\ h' = <[barber :=
               Barber rb {| __shave_time := __shave_time bb;
                            __busy_till := Z.max due_time (__busy_till bb)
                                           + __shave_time bb |}]> (heap w).

(** The outcome of an interrupted computation: a normal one that
    satisfies [P], or [KeyboardInterrupt] in a world that satisfies [Q]. *)
Definition interrupted_in (P Q : world -> Prop) (x : result unit * world)
    : Prop :=
  match x with
  | (Ok _, w') => P w'
  | (Raise e, w') => e = KeyboardInterrupt /\ Q w'
  end.


(** * Properties *)

(** ** Reading the heap *)

Lemma load_Some r o w : heap w !! r = Some o -> load r w = (Ok o, w).
Proof. intros H. unfold load. now rewrite H. Qed.

Lemma load_None r w : heap w !! r = None -> load r w = (Raise Unallocated, w).
Proof. intros H. unfold load. now rewrite H. Qed.

Lemma checkpoint_quiet w : sigint w = None -> checkpoint w = (Ok tt, w).
Proof. intros H. unfold checkpoint. now rewrite H. Qed.

Lemma stmt_quiet {A} (m : M A) w : sigint w = None -> stmt m w = m w.
Proof. intros H. unfold stmt, bind. now rewrite checkpoint_quiet. Qed.

Lemma get_next_shave_time_Some r o w :
  heap w !! r = Some o -> _get_next_shave_time r w = (Ok (due o), w).
Proof.
  intros H. unfold _get_next_shave_time, bind. now rewrite (load_Some r o).
Qed.

Lemma str_Some r o w :
  heap w !! r = Some o -> __str__ r w = (Ok (__name (attrs o)), w).
Proof. intros H. unfold __str__, bind. now rewrite (load_Some r o). Qed.

Lemma barber_attrs_Barber attr r rb bb w :
  heap w !! r = Some (Barber rb bb) -> barber_attrs attr r w = (Ok bb, w).
Proof.
  intros H. unfold barber_attrs, bind. now rewrite (load_Some r _ w H).
Qed.

Lemma busy_till_Barber r rb bb w :
  heap w !! r = Some (Barber rb bb) -> busy_till r w = (Ok (__busy_till bb), w).
Proof.
  intros H. unfold busy_till, bind. now rewrite (barber_attrs_Barber _ r rb bb).
Qed.

Lemma bind_eq {A B} (m : M A) (f : A -> M B) w :
  bind m f w =
    match m w with
    | (Ok a, w') => f a w'
    | (Raise e, w') => (Raise e, w')
    end.
Proof. reflexivity. Qed.

Lemma set__busy_till_Barber r rb bb value w :
  heap w !! r = Some (Barber rb bb) ->
  set__busy_till r value w =
    (Ok tt, {| heap := <[r := Barber rb {| __shave_time := __shave_time bb;
                                           __busy_till := value |}]> (heap w);
               stdout := stdout w;
               sigint := sigint w |}).
Proof.
  intros H. unfold set__busy_till. now rewrite bind_eq, (load_Some r _ w H).
Qed.

Lemma set_last_shave_time_Some r o time w :
  heap w !! r = Some o ->
  set_last_shave_time r time w =
    (Ok tt, {| heap := <[r := with_last_shave_time o time]> (heap w);
               stdout := stdout w;
               sigint := sigint w |}).
Proof.
  intros H. unfold set_last_shave_time. now rewrite bind_eq, (load_Some r _ w H).
Qed.

(** One step of symbolic execution of a computation on a world whose
    heap lookups are among the hypotheses. *)
Ltac heap_side :=
  cbn [heap stdout sigint]; first [eassumption | reflexivity | solve [eauto]].

Ltac mstep :=
  first
    [ rewrite bind_eq
    | rewrite stmt_quiet by heap_side
    | erewrite str_Some by heap_side
    | erewrite get_next_shave_time_Some by heap_side
    | erewrite barber_attrs_Barber by heap_side
    | erewrite busy_till_Barber by heap_side
    | erewrite set__busy_till_Barber by heap_side
    | erewrite set_last_shave_time_Some by heap_side
    | progress cbv [print ret raise]
    | progress cbn [heap stdout sigint]
    | progress cbv beta iota ].

(** ** The shave event *)

Lemma shave_quiet self time resident rb bb o w :
  heap w !! self = Some (Barber rb bb) ->
  heap w !! resident = Some o ->
  sigint w = None ->
  shave self time resident w =
    (Ok tt, {| heap := shave_heap (heap w) time self resident rb bb;
               stdout := stdout w ++ shave_lines time self resident rb o;
               sigint := None |}).
Proof.
  destruct w as [h out sg]. cbn [heap stdout sigint]. intros Hs Hr ->.
  assert (Hs1 : forall x, <[self := x]> h !! self = Some x).
  { intros x. apply list_lookup_insert_eq. now apply lookup_lt_Some in Hs. }
  assert (Hr1 : forall x, resident <> self -> <[self := x]> h !! resident = Some o).
  { intros x Hne. rewrite list_lookup_insert_ne by congruence. exact Hr. }
  unfold shave_heap, shave_lines, shave. cbv zeta.
  destruct (negb (time =? due o)) eqn:Hlate;
    (destruct (Nat.eqb_spec resident self) as [-> | Hne];
     [ rewrite Hs in Hr; injection Hr as <-; rewrite Hs1
     | rewrite Hr1 by assumption ]);
    repeat mstep; rewrite ?Nat.eqb_refl, ?Hlate; repeat mstep;
    rewrite ?Hlate; repeat mstep.
  all: cbn [attrs app]; rewrite <- ?app_assoc; reflexivity.
Qed.

Lemma shave_heap_lookup h time self resident rb bb o x :
  h !! self = Some (Barber rb bb) ->
  h !! resident = Some o ->
  let bb' := {| __shave_time := __shave_time bb;
                __busy_till := time + __shave_time bb |} in
  shave_heap h time self resident rb bb !! x =
    if decide (x = resident) then
      Some (with_last_shave_time
              (if decide (resident = self) then Barber rb bb' else o)
              (time + __shave_time bb))
    else if decide (x = self) then Some (Barber rb bb')
    else h !! x.
Proof.
  intros Hs Hr bb'. unfold shave_heap. cbv zeta. fold bb'.
  pose proof (lookup_lt_Some _ _ _ Hs) as Ls.
  pose proof (lookup_lt_Some _ _ _ Hr) as Lr.
  destruct (decide (resident = self)) as [-> | Hne].
  - rewrite list_lookup_insert_eq by assumption.
    destruct (decide (x = self)) as [-> | Hx].
    + rewrite list_lookup_insert_eq; [reflexivity | now rewrite length_insert].
    + now rewrite !list_lookup_insert_ne by congruence.
  - rewrite list_lookup_insert_ne by congruence. rewrite Hr.
    destruct (decide (x = resident)) as [-> | Hx].
    + rewrite list_lookup_insert_eq; [reflexivity | now rewrite length_insert].
    + rewrite list_lookup_insert_ne by congruence.
      destruct (decide (x = self)) as [-> | Hx'].
      * now rewrite list_lookup_insert_eq.
      * now rewrite list_lookup_insert_ne by congruence.
Qed.

(** ** Selection by [min] *)

Lemma first_min_split {A} (key : A -> Z) (l : list A) : forall best,
  exists pre post,
    best :: l = pre ++ first_min key best l :: post
    /\ (forall y, y ∈ pre -> key (first_min key best l) < key y)
    /\ (forall y, y ∈ post -> key (first_min key best l) <= key y).
Proof.
  induction l as [| x l IH]; intros best; cbn [first_min].
  - exists [], []. repeat split; intros y Hy; inversion Hy.
  - destruct (Z.ltb_spec (key x) (key best)) as [Hlt | Hge].
    + destruct (IH x) as (pre & post & Heq & Hpre & Hpost).
      assert (Hx : key (first_min key x l) <= key x).
      { destruct pre as [| p pre]; cbn in Heq; injection Heq as H1 H2.
        - rewrite <- H1. lia.
        - subst p. specialize (Hpre x (list_elem_of_here _ _)). lia. }
      exists (best :: pre), post. repeat split; [now rewrite Heq | | exact Hpost].
      intros y Hy. apply elem_of_cons in Hy as [-> | Hy]; [lia | now apply Hpre].
    + destruct (IH best) as (pre & post & Heq & Hpre & Hpost).
      destruct pre as [| p pre]; cbn in Heq; injection Heq as H1 H2.
      * exists [], (x :: post). rewrite <- H1, H2. repeat split.
        -- intros y Hy; inversion Hy.
        -- intros y Hy. apply elem_of_cons in Hy as [-> | Hy]; [lia |].
           rewrite H1. now apply Hpost.
      * subst p. exists (best :: x :: pre), post.
        pose proof (Hpre best (list_elem_of_here _ _)) as Hbest.
        split; [cbn; do 2 f_equal; exact H2 |]. split; [| exact Hpost].
        intros y Hy. apply elem_of_cons in Hy as [-> | Hy]; [exact Hbest |].
        apply elem_of_cons in Hy as [-> | Hy]; [lia |].
        apply Hpre. now apply list_elem_of_further.
Qed.

(** [min] with a key that only reads the world. *)
Lemma min_scan_reads {A} (key : A -> M Z) (k : A -> Z) w (l : list A) :
  (forall x, x ∈ l -> key x w = (Ok (k x), w)) ->
  forall best, min_scan key best (k best) l w = (Ok (first_min k best l), w).
Proof.
  induction l as [| x l IH]; intros Hk best; cbn [min_scan first_min].
  - reflexivity.
  - rewrite bind_eq, (Hk x) by apply list_elem_of_here.
    assert (Hl : forall y, y ∈ l -> key y w = (Ok (k y), w)).
    { intros y Hy. apply Hk. now apply list_elem_of_further. }
    destruct (k x <? k best); now apply IH.
Qed.

Lemma py_min_reads {A} (key : A -> M Z) (k : A -> Z) w (x : A) (l : list A) :
  (forall y, y ∈ x :: l -> key y w = (Ok (k y), w)) ->
  py_min key (x :: l) w = (Ok (first_min k x l), w).
Proof.
  intros Hk. unfold py_min. rewrite bind_eq, (Hk x) by apply list_elem_of_here.
  apply min_scan_reads. intros y Hy. apply Hk. now apply list_elem_of_further.
Qed.

(** ** The two selections of the village *)

Lemma get_next_shave_time_at r w :
  is_Some (heap w !! r) ->
  _get_next_shave_time r w = (Ok (due_at (heap w) r), w).
Proof.
  intros [o Ho]. unfold due_at. rewrite Ho. now apply get_next_shave_time_Some.
Qed.

Lemma busy_till_at r w :
  barber_at (heap w) r = true -> busy_till r w = (Ok (busy_at (heap w) r), w).
Proof.
  unfold barber_at, busy_at. destruct (heap w !! r) as [[rr | rr bb] |] eqn:Ho;
    cbn; try discriminate.
  intros _. now apply (busy_till_Barber r rr bb).
Qed.

Lemma barbers_of_filter w (l : list ref) :
  allocated w l ->
  barbers_of l w = (Ok (List.filter (barber_at (heap w)) l), w).
Proof.
  induction l as [| r l IH]; intros Hl; cbn [barbers_of List.filter].
  - reflexivity.
  - destruct (Hl r (list_elem_of_here _ _)) as [o Ho].
    assert (barber_at (heap w) r = isinstance_Barber o) as ->
      by (unfold barber_at; now rewrite Ho).
    rewrite bind_eq, (load_Some r o w Ho), bind_eq, IH.
    + reflexivity.
    + intros y Hy. apply Hl. now apply list_elem_of_further.
Qed.

Lemma filter_split_inv {A} (f : A -> bool) (l : list A) : forall pre' b post',
  List.filter f l = pre' ++ b :: post' ->
  exists pre post,
    l = pre ++ b :: post
    /\ List.filter f pre = pre' /\ List.filter f post = post'.
Proof.
  induction l as [| x l IH]; intros pre' b post' H; cbn in H.
  - now destruct pre'.
  - destruct (f x) eqn:Hx.
    + destruct pre' as [| p pre']; cbn in H; injection H as H1 H2.
      * subst x. exists [], l. now repeat split.
      * subst p. destruct (IH _ _ _ H2) as (pre & post & -> & Hp & Hq).
        exists (x :: pre), post. repeat split; [| exact Hq].
        cbn. rewrite Hx. now f_equal.
    + destruct (IH _ _ _ H) as (pre & post & -> & Hp & Hq).
      exists (x :: pre), post. repeat split; [| exact Hq].
      cbn. now rewrite Hx.
Qed.

Lemma get_next_shave_first_min self w x l :
  residents self = x :: l ->
  allocated w (residents self) ->
  get_next_shave self w = (Ok (first_min (due_at (heap w)) x l), w).
Proof.
  intros Hres Hal. unfold get_next_shave. rewrite Hres in *.
  apply py_min_reads. intros y Hy. apply get_next_shave_time_at. now apply Hal.
Qed.

Lemma get_next_free_barber_first_min self w x l :
  allocated w (residents self) ->
  List.filter (barber_at (heap w)) (residents self) = x :: l ->
  get_next_free_barber self w = (Ok (first_min (busy_at (heap w)) x l), w).
Proof.
  intros Hal Hres. unfold get_next_free_barber.
  rewrite bind_eq, (barbers_of_filter w _ Hal), Hres.
  apply py_min_reads. intros y Hy. apply busy_till_at.
  rewrite <- Hres in Hy. apply list_elem_of_In, filter_In in Hy. tauto.
Qed.

Lemma get_next_free_barber_no_barber self w :
  allocated w (residents self) ->
  List.filter (barber_at (heap w)) (residents self) = [] ->
  get_next_free_barber self w = (Raise ValueError_min_empty, w).
Proof.
  intros Hal Hres. unfold get_next_free_barber.
  now rewrite bind_eq, (barbers_of_filter w _ Hal), Hres.
Qed.

Lemma py_max_max a b : py_max a b = Z.max a b.
Proof. unfold py_max. destruct (Z.ltb_spec a b); lia. Qed.

(** ** What a shave never changes *)

Lemma static_with_last_shave_time o time :
  static (with_last_shave_time o time) = static o.
Proof. now destruct o. Qed.

Lemma shave_heap_static h time self resident rb bb o :
  h !! self = Some (Barber rb bb) ->
  h !! resident = Some o ->
  same_static h (shave_heap h time self resident rb bb).
Proof.
  intros Hs Hr x. rewrite (shave_heap_lookup h time self resident rb bb o x Hs Hr).
  repeat case_decide; subst; rewrite ?Hs, ?Hr in *; cbn;
    rewrite ?static_with_last_shave_time; try reflexivity.
  now injection Hr as <-.
Qed.

Lemma same_static_is_Some h h' x :
  same_static h h' -> is_Some (h !! x) -> is_Some (h' !! x).
Proof.
  intros H [o Ho]. specialize (H x). rewrite Ho in H.
  destruct (h' !! x); [eauto | discriminate].
Qed.

Lemma same_static_barber_at h h' x :
  same_static h h' -> barber_at h' x = barber_at h x.
Proof.
  intros H. specialize (H x). unfold barber_at.
  destruct (h !! x) as [[] |], (h' !! x) as [[] |];
    unfold static in H; cbn in *; congruence.
Qed.

Lemma same_static_filter h h' (l : list ref) :
  same_static h h' ->
  List.filter (barber_at h') l = List.filter (barber_at h) l.
Proof.
  intros H. apply filter_ext. intros x. now apply same_static_barber_at.
Qed.

(** ** One iteration *)

Lemma ready_lists self w :
  ready self w ->
  exists x l y bs,
    residents self = x :: l
    /\ List.filter (barber_at (heap w)) (residents self) = y :: bs.
Proof.
  intros (_ & _ & b & Hb & Hbar).
  destruct (residents self) as [| x l] eqn:Hres; [inversion Hb |].
  destruct (List.filter (barber_at (heap w)) (x :: l)) as [| y bs] eqn:Hf.
  - assert (Hin : In b (List.filter (barber_at (heap w)) (x :: l))).
    { apply filter_In. split; [now apply list_elem_of_In | exact Hbar]. }
    rewrite Hf in Hin. destruct Hin.
  - now exists x, l, y, bs.
Qed.

Lemma first_min_elem {A} (key : A -> Z) best (l : list A) :
  first_min key best l ∈ best :: l.
Proof.
  destruct (first_min_split key l best) as (pre & post & -> & _).
  apply elem_of_app. right. apply list_elem_of_here.
Qed.

(** The iteration is the one call of [shave] it ends with. *)
Lemma loop_body_quiet self w x l y bs :
  sigint w = None ->
  allocated w (residents self) ->
  residents self = x :: l ->
  List.filter (barber_at (heap w)) (residents self) = y :: bs ->
  let r := first_min (due_at (heap w)) x l in
  let b := first_min (busy_at (heap w)) y bs in
  loop_body self w =
    shave b (py_max (due_at (heap w) r) (busy_at (heap w) b)) r w.
Proof.
  intros Hq Hal Hres Hf r b. unfold loop_body.
  assert (Hr : is_Some (heap w !! r)).
  { apply Hal. rewrite Hres. apply first_min_elem. }
  assert (Hb : barber_at (heap w) b = true).
  { assert (Hin : b ∈ y :: bs) by apply first_min_elem.
    rewrite <- Hf in Hin. apply list_elem_of_In, filter_In in Hin. tauto. }
  rewrite bind_eq, stmt_quiet, (get_next_shave_first_min self w x l) by assumption.
  rewrite bind_eq, stmt_quiet, (get_next_free_barber_first_min self w y bs)
    by assumption.
  fold r b.
  rewrite bind_eq, stmt_quiet, bind_eq, get_next_shave_time_at by assumption.
  rewrite bind_eq, busy_till_at by assumption.
  reflexivity.
Qed.

Lemma ready_same_static self w w' :
  ready self w -> same_static (heap w) (heap w') -> sigint w' = None ->
  ready self w'.
Proof.
  intros (_ & Hal & b & Hb & Hbar) Hst Hq. repeat split; [exact Hq | |].
  - intros r Hr. eapply same_static_is_Some; eauto.
  - exists b. split; [exact Hb |]. now rewrite (same_static_barber_at _ _ b Hst).
Qed.

Lemma loop_body_ready self w :
  ready self w ->
  exists resident barber o rb bb w',
    get_next_shave self w = (Ok resident, w)
    /\ get_next_free_barber self w = (Ok barber, w)
    /\ resident ∈ residents self
    /\ barber ∈ residents self
    /\ shaved w resident barber o rb bb w'
    /\ loop_body self w =
         shave barber (Z.max (due o) (__busy_till bb)) resident w
    /\ loop_body self w = (Ok tt, w')
    /\ ready self w'.
Proof.
  intros Hready. destruct (ready_lists self w Hready) as (x & l & y & bs & Hres & Hf).
  pose proof Hready as (Hq & Hal & _).
  set (r := first_min (due_at (heap w)) x l).
  set (b := first_min (busy_at (heap w)) y bs).
  assert (Hrin : r ∈ residents self) by (rewrite Hres; apply first_min_elem).
  assert (Hbf : In b (List.filter (barber_at (heap w)) (residents self))).
  { rewrite Hf. apply list_elem_of_In, first_min_elem. }
  apply filter_In in Hbf as [Hbin Hbar]. apply list_elem_of_In in Hbin.
  destruct (Hal r Hrin) as [o Ho].
  assert (exists rb bb, heap w !! b = Some (Barber rb bb)) as (rb & bb & Hb).
  { unfold barber_at in Hbar. destruct (heap w !! b) as [[rr | rr bb] |];
      try discriminate. eauto. }
  pose proof (loop_body_quiet self w x l y bs Hq Hal Hres Hf) as Hbody.
  cbv zeta in Hbody. fold r b in Hbody.
  assert (Hdue : due_at (heap w) r = due o) by (unfold due_at; now rewrite Ho).
  assert (Hbusy : busy_at (heap w) b = __busy_till bb)
    by (unfold busy_at; now rewrite Hb).
  rewrite Hdue, Hbusy, py_max_max in Hbody.
  eexists r, b, o, rb, bb, _. split_and!.
  - now apply get_next_shave_first_min.
  - now apply get_next_free_barber_first_min.
  - exact Hrin.
  - exact Hbin.
  - split_and!; [exact Ho | exact Hb | reflexivity].
  - exact Hbody.
  - rewrite Hbody. now apply shave_quiet.
  - apply (ready_same_static self w); [exact Hready | | reflexivity].
    cbn [heap]. now apply (shave_heap_static _ _ _ _ _ _ o).
Qed.

(** ** The loop *)

Lemma shaves_logged_app out out' :
  shaves_logged (out ++ out') = (shaves_logged out + shaves_logged out')%nat.
Proof. unfold shaves_logged. now rewrite List.filter_app, length_app. Qed.

Lemma shaves_logged_shave_lines time self resident rb o :
  shaves_logged (shave_lines time self resident rb o) = 1%nat.
Proof.
  unfold shave_lines.
  now destruct (Nat.eqb resident self), (negb (time =? due o)).
Qed.

Lemma run_loop_ready self count : count <> -1 ->
  forall (n : nat) (i : Z) (w : world),
    ready self w ->
    count = i + Z.of_nat n ->
    exists w',
      repeat_body n self w = (Ok tt, w')
      /\ ready self w'
      /\ shaves_logged (stdout w') = (shaves_logged (stdout w) + n)%nat
      /\ forall fuel, (n < fuel)%nat ->
           run_loop fuel self count i w = Some (Ok tt, w').
Proof.
  intros Hc n. induction n as [| n IH]; intros i w Hready Hcount.
  - exists w. split_and!; [reflexivity | exact Hready | lia |].
    intros [| fuel] Hfuel; [lia |]. cbn [run_loop].
    rewrite checkpoint_quiet by apply Hready.
    unfold __range_done.
    destruct (Z.eqb_spec count (-1)); [contradiction |].
    destruct (Z.geb_spec i count); [reflexivity | lia].
  - destruct (loop_body_ready self w Hready)
      as (r & b & o & rb & bb & w1 & _ & _ & _ & _ & Hsh & _ & Hbody & Hready1).
    destruct (IH (i + 1) w1 Hready1 ltac:(lia)) as (w' & Hrep & Hready' & Hlog & Hrun).
    exists w'. split_and!.
    + cbn [repeat_body]. now rewrite bind_eq, Hbody.
    + exact Hready'.
    + rewrite Hlog. destruct Hsh as (_ & _ & ->). cbn [stdout].
      rewrite shaves_logged_app, shaves_logged_shave_lines. lia.
    + intros [| fuel] Hfuel; [lia |]. cbn [run_loop].
      rewrite checkpoint_quiet by apply Hready.
      unfold __range_done.
      destruct (Z.eqb_spec count (-1)); [contradiction |].
      destruct (Z.geb_spec i count); [lia |]. cbn [negb andb].
      rewrite Hbody. apply Hrun. lia.
Qed.

(** ** Interrupts *)

Lemma stmt_now {A} (m : M A) h out :
  stmt m {| heap := h; stdout := out; sigint := Some O |} =
    (Raise KeyboardInterrupt, {| heap := h; stdout := out; sigint := None |}).
Proof. reflexivity. Qed.

Lemma stmt_later {A} (m : M A) h out k :
  stmt m {| heap := h; stdout := out; sigint := Some (S k) |} =
    m {| heap := h; stdout := out; sigint := Some k |}.
Proof. reflexivity. Qed.

(** At a statement: the interrupt is due now, or later. *)
Ltac istep k :=
  try rewrite bind_eq; destruct k as [| k];
  [ rewrite stmt_now; reflexivity | rewrite stmt_later ].

Lemma shave_interrupted self time resident rb bb o h out k :
  h !! self = Some (Barber rb bb) ->
  h !! resident = Some o ->
  interrupted_or
    (fun w' => same_static h (heap w')
               /\ exists k', sigint w' = Some k' /\ (k' <= k)%nat)
    (shave self time resident {| heap := h; stdout := out; sigint := Some k |}).
Proof.
  intros Hs Hr.
  pose proof (shave_heap_static h time self resident rb bb o Hs Hr) as Hst.
  unfold shave_heap in Hst. cbv zeta in Hst.
  assert (Hs1 : forall x, <[self := x]> h !! self = Some x).
  { intros x. apply list_lookup_insert_eq. now apply lookup_lt_Some in Hs. }
  assert (Hr1 : forall x, resident <> self -> <[self := x]> h !! resident = Some o).
  { intros x Hne. rewrite list_lookup_insert_ne by congruence. exact Hr. }
  unfold shave. rewrite bind_eq, (barber_attrs_Barber _ self rb bb) by assumption.
  destruct (negb (time =? due o)) eqn:Hlate;
    (destruct (Nat.eqb_spec resident self) as [-> | Hne];
     [ rewrite Hs in Hr; injection Hr as <-; rewrite Hs1 in Hst
     | rewrite Hr1 in Hst by assumption ]).
  all: do 6 (istep k; repeat mstep; rewrite ?Nat.eqb_refl, ?Hlate; repeat mstep).
  all: split; [exact Hst | exists k; split; [reflexivity | cbn; lia]].
Qed.

Lemma loop_body_interrupted self h out k :
  let w := {| heap := h; stdout := out; sigint := Some k |} in
  allocated w (residents self) ->
  (exists b, b ∈ residents self /\ barber_at h b = true) ->
  interrupted_or
    (fun w' => same_static h (heap w')
               /\ exists k', sigint w' = Some k' /\ (k' < k)%nat)
    (loop_body self w).
Proof.
  intros w Hal Hbar.
  destruct (ready_lists self {| heap := h; stdout := out; sigint := None |})
    as (x & l & y & bs & Hres & Hf); [now split_and! |]. cbn [heap] in Hf.
  set (r := first_min (due_at h) x l).
  set (b := first_min (busy_at h) y bs).
  assert (Hrin : r ∈ residents self) by (rewrite Hres; apply first_min_elem).
  assert (Hbf : In b (List.filter (barber_at h) (residents self))).
  { rewrite Hf. apply list_elem_of_In, first_min_elem. }
  apply filter_In in Hbf as [Hbin Hb]. apply list_elem_of_In in Hbin.
  destruct (Hal r Hrin) as [o Ho]. cbn [heap w] in Ho.
  assert (exists rb bb, h !! b = Some (Barber rb bb)) as (rb & bb & Hbo).
  { unfold barber_at in Hb. destruct (h !! b) as [[rr | rr bb] |];
      try discriminate. eauto. }
  subst w. unfold loop_body.
  istep k. rewrite (get_next_shave_first_min self _ x l) by assumption.
  cbn [heap]. fold r.
  istep k. rewrite (get_next_free_barber_first_min self _ y bs) by assumption.
  cbn [heap]. fold b.
  istep k. rewrite bind_eq, get_next_shave_time_at by (cbn [heap]; eauto).
  rewrite bind_eq, busy_till_at by assumption. cbv [ret]. cbn [heap].
  pose proof (shave_interrupted b (py_max (due_at h r) (busy_at h b)) r rb bb o
                h out k Hbo Ho) as Hsh.
  destruct (shave _ _ _ _) as [[[] | e] w']; cbn in *; [| exact Hsh].
  destruct Hsh as (Hst & k' & Hk' & Hle). split; [exact Hst |].
  exists k'. split; [exact Hk' | lia].
Qed.

Lemma run_loop_fuel_mono self count : forall fuel i w x,
  run_loop fuel self count i w = Some x ->
  forall fuel', (fuel <= fuel')%nat -> run_loop fuel' self count i w = Some x.
Proof.
  induction fuel as [| fuel IH]; intros i w x H [| fuel'] Hle;
    try discriminate; try lia.
  cbn [run_loop] in *.
  destruct (checkpoint w) as [[[] | e] w1]; [| exact H].
  destruct (__range_done count i); [exact H |].
  destruct (loop_body self w1) as [[[] | e] w2]; [| exact H].
  apply (IH _ _ _ H). lia.
Qed.

Lemma run_loop_interrupted self count : forall fuel k i h out,
  (k < fuel)%nat ->
  let w := {| heap := h; stdout := out; sigint := Some k |} in
  allocated w (residents self) ->
  (exists b, b ∈ residents self /\ barber_at h b = true) ->
  exists res w',
    run_loop fuel self count i w = Some (res, w')
    /\ (res = Ok tt \/ res = Raise KeyboardInterrupt).
Proof.
  induction fuel as [| fuel IH]; intros k i h out Hk w Hal Hbar; [lia |].
  subst w. cbn [run_loop].
  destruct k as [| k]; cbn [checkpoint sigint heap stdout].
  { eexists _, _. split; [reflexivity | now right]. }
  destruct (__range_done count i).
  { eexists _, _. split; [reflexivity | now left]. }
  pose proof (loop_body_interrupted self h out k Hal Hbar) as Hbody.
  cbv zeta in Hbody.
  destruct (loop_body self _) as [[[] | e] w2]; cbn [interrupted_or] in Hbody.
  - destruct Hbody as (Hst & k' & Hk' & Hlt). destruct w2 as [h2 out2 sg2].
    cbn [heap sigint] in *. subst sg2.
    apply IH; [lia | |].
    + intros r Hr. cbn [heap]. eapply same_static_is_Some; [exact Hst |].
      now apply Hal.
    + destruct Hbar as (b & Hb & Hbb). exists b. split; [exact Hb |].
      now rewrite (same_static_barber_at h h2 b Hst).
  - subst e. eexists _, w2. split; [reflexivity | now right].
Qed.

(** ** The village of the script *)

Lemma script_ready : ready script_village script_world.
Proof.
  split_and!.
  - reflexivity.
  - intros r Hr. cbn in Hr. rewrite !elem_of_cons, elem_of_nil in Hr.
    destruct Hr as [-> | [-> | [-> | []]]]; cbn; eauto.
  - exists 2%nat. split; [| reflexivity]. cbn. rewrite !elem_of_cons. tauto.
Qed.

(** ** Clocks only move forward *)

Lemma same_static_refl h : same_static h h.
Proof. now intros x. Qed.

Lemma same_static_trans h1 h2 h3 :
  same_static h1 h2 -> same_static h2 h3 -> same_static h1 h3.
Proof. intros H12 H23 x. now rewrite H23, H12. Qed.

Lemma positive_same_static self w w' :
  positive self w -> same_static (heap w) (heap w') -> positive self w'.
Proof.
  intros Hpos Hst r o' Hr Ho'. specialize (Hst r). rewrite Ho' in Hst.
  destruct (heap w !! r) as [o |] eqn:Ho; [| discriminate].
  destruct (Hpos r o Hr Ho) as [Hg Hs]. cbn in Hst. injection Hst as Hst.
  unfold static in Hst. split.
  - assert (__beard_growth_time (attrs o') = __beard_growth_time (attrs o))
      as -> by congruence. exact Hg.
  - intros rb' bb' ->. destruct o as [rr | rr bb]; [discriminate |].
    assert (__shave_time bb' = __shave_time bb) as -> by congruence.
    now apply (Hs rr bb).
Qed.



Lemma shaved_advances w resident barber o rb bb w' :
  shaved w resident barber o rb bb w' ->
  0 < __beard_growth_time (attrs o) ->
  0 < __shave_time bb ->
  advanced (heap w) (heap w')
  /\ (exists o', heap w' !! resident = Some o' /\ last_of o < last_of o')
  /\ (exists rb' bb', heap w' !! barber = Some (Barber rb' bb')
                      /\ __busy_till bb < __busy_till bb').
Proof.
  intros (Ho & Hb & ->) Hg Hs. cbn [heap].
  set (time := Z.max (due o) (__busy_till bb)).
  assert (Ht : last_of o < time + __shave_time bb
               /\ __busy_till bb < time + __shave_time bb).
  { unfold last_of, time, due. lia. }
  pose proof (fun x => shave_heap_lookup (heap w) time barber resident rb bb o x
                         Hb Ho) as Hl.
  cbv zeta in Hl. split_and!.
  - intros x ox ox' Hx Hx'. rewrite Hl in Hx'. unfold last_of in *.
    destruct (decide (x = resident)) as [-> | Hxr].
    + rewrite Ho in Hx. injection Hx as <-. injection Hx' as <-.
      destruct (decide (resident = barber)) as [-> | Hrb].
      * rewrite Hb in Ho. injection Ho as <-. cbn in *. lia.
      * destruct o; cbn in *; lia.
    + destruct (decide (x = barber)) as [-> | Hxb].
      * rewrite Hb in Hx. injection Hx as <-. injection Hx' as <-. cbn. lia.
      * rewrite Hx in Hx'. injection Hx' as <-. lia.
  - rewrite Hl, decide_True by reflexivity. eexists. split; [reflexivity |].
    unfold last_of in *.
    destruct (decide (resident = barber)) as [-> | Hrb].
    + rewrite Hb in Ho. injection Ho as <-. cbn in *. lia.
    + destruct o; cbn in *; lia.
  - rewrite Hl. destruct (decide (barber = resident)) as [<- | Hbr].
    + rewrite Hb in Ho. injection Ho as <-. rewrite decide_True by reflexivity.
      cbn. eexists _, _. split; [reflexivity |]. cbn. lia.
    + rewrite decide_True by reflexivity.
      eexists _, _. split; [reflexivity |]. cbn. lia.
Qed.

Lemma shaved_same_static w resident barber o rb bb w' :
  shaved w resident barber o rb bb w' -> same_static (heap w) (heap w').
Proof.
  intros (Ho & Hb & ->). cbn [heap]. now apply (shave_heap_static _ _ _ _ _ _ o).
Qed.

Lemma repeat_body_add self (n d : nat) w :
  repeat_body (n + d) self w =
    (repeat_body n self >> repeat_body d self) w.
Proof.
  revert w. induction n as [| n IH]; intros w; cbn [repeat_body Nat.add].
  - reflexivity.
  - rewrite !bind_eq. destruct (loop_body self w) as [[[] | e] w1]; [| reflexivity].
    rewrite IH. now rewrite bind_eq.
Qed.


(** ** The whole effect of [shave] *)

Lemma shave_result (w : world) (b r : ref) (t : Z)
    (rb : ResidentAttrs) (bb : BarberAttrs) (o : object) :
  heap w !! b = Some (Barber rb bb) ->
  heap w !! r = Some o ->
  sigint w = None ->
  exists w' rb' bb' o',
    shave b t r w = (Ok tt, w')
    /\ busy_till b w' = (Ok (t + __shave_time bb), w')
    /\ heap w' !! b = Some (Barber rb' bb')
    /\ __shave_time bb' = __shave_time bb
    /\ __busy_till bb' = t + __shave_time bb
    /\ heap w' !! r = Some o'
    /\ __last_shave_time (attrs o') = __busy_till bb'.
Proof.
  intros Hb Hr Hq.
  pose proof (fun x => shave_heap_lookup (heap w) t b r rb bb o x Hb Hr) as Hl.
  cbv zeta in Hl.
  assert (exists rb',
            shave_heap (heap w) t b r rb bb !! b =
              Some (Barber rb' {| __shave_time := __shave_time bb;
                                  __busy_till := t + __shave_time bb |}))
    as [rb' Hb'].
  { rewrite Hl. destruct (decide (b = r)) as [<- | Hne].
    - rewrite decide_True by reflexivity. cbn. eauto.
    - rewrite decide_True by reflexivity. eauto. }
  set (w' := {| heap := shave_heap (heap w) t b r rb bb;
                stdout := stdout w ++ shave_lines t b r rb o;
                sigint := None |}).
  exists w', rb'. eexists _, _. split_and!.
  - now apply (shave_quiet b t r rb bb o).
  - exact (busy_till_Barber b rb' _ w' Hb').
  - exact Hb'.
  - reflexivity.
  - reflexivity.
  - cbn [heap w']. rewrite Hl, decide_True by reflexivity. reflexivity.
  - now destruct (decide (r = b)), o.
Qed.

(** * The claims *)

(** C1. After [b.shave(t, r)] the barber's [busy_till] is
    [t + shave_time], and [r]'s last shave time is that same value, not
    [t]; also when [r] is [b] itself. *)
Theorem C1_shave_couples_the_clocks (w : world) (b r : ref) (t : Z)
    (rb : ResidentAttrs) (bb : BarberAttrs) (o : object) :
  heap w !! b = Some (Barber rb bb) ->
  heap w !! r = Some o ->
  sigint w = None ->
  exists w' rb' bb' o',
    shave b t r w = (Ok tt, w')
    /\ busy_till b w' = (Ok (t + __shave_time bb), w')
    /\ heap w' !! b = Some (Barber rb' bb')
    /\ __shave_time bb' = __shave_time bb
    /\ __busy_till bb' = t + __shave_time bb
    /\ heap w' !! r = Some o'
    /\ __last_shave_time (attrs o') = __busy_till bb'.
Proof. exact (shave_result w b r t rb bb o). Qed.

(** The barber of the script shaves himself at time 6. *)
Lemma C1_witness :
  let w := {| heap := [Barber {| __name := "b1";
                                 __beard_growth_time := 6;
                                 __last_shave_time := 0 |}
                              {| __shave_time := 1; __busy_till := 0 |}];
              stdout := [];
              sigint := None |} in
  exists w' rb' bb' o',
    shave 0 6 0 w = (Ok tt, w')
    /\ busy_till 0 w' = (Ok (6 + 1), w')
    /\ heap w' !! 0%nat = Some (Barber rb' bb')
    /\ __shave_time bb' = 1
    /\ __busy_till bb' = 6 + 1
    /\ heap w' !! 0%nat = Some o'
    /\ __last_shave_time (attrs o') = __busy_till bb'.
Proof.
  intros w.
  exact (C1_shave_couples_the_clocks w 0 0 6 _ _ _ eq_refl eq_refl eq_refl).
Defined.

(** C6. [shave] writes the late flag exactly when [time] differs from the
    resident's next shave time at the call, the comparison being plain
    inequality, and the self-shave flag exactly when the resident is the
    barber; it then goes on to the end of the call either way. *)
Theorem C6_shave_flags (w : world) (b r : ref) (t : Z)
    (rb : ResidentAttrs) (bb : BarberAttrs) (o : object) :
  heap w !! b = Some (Barber rb bb) ->
  heap w !! r = Some o ->
  sigint w = None ->
  exists w' lines d,
    _get_next_shave_time r w = (Ok d, w)
    /\ shave b t r w = (Ok tt, w')
    /\ stdout w' = stdout w ++ lines
    /\ (print_late ∈ lines <-> t <> d)
    /\ (print_himself ∈ lines <-> r = b)
    /\ busy_till b w' = (Ok (t + __shave_time bb), w').
Proof.
  intros Hb Hr Hq.
  destruct (shave_result w b r t rb bb o Hb Hr Hq)
    as (w' & _ & _ & _ & Hsh & Hbusy & _).
  exists w', (shave_lines t b r rb o), (due o). split_and!.
  - now apply get_next_shave_time_Some.
  - exact Hsh.
  - rewrite (shave_quiet b t r rb bb o w Hb Hr Hq) in Hsh. now injection Hsh as <-.
  - unfold shave_lines.
    destruct (Nat.eqb r b), (Z.eqb_spec t (due o)); cbn [negb app];
      rewrite ?elem_of_cons, ?elem_of_nil; split; intros H;
      try tauto; firstorder congruence.
  - unfold shave_lines.
    destruct (Nat.eqb_spec r b), (negb (t =? due o)); cbn [app];
      rewrite ?elem_of_cons, ?elem_of_nil; split; intros H;
      try tauto; firstorder congruence.
  - exact Hbusy.
Qed.

(** The barber of the script shaves [r1] at time 5, three units late. *)
Lemma C6_witness :
  exists w' lines d,
    _get_next_shave_time 0 script_world = (Ok d, script_world)
    /\ shave 2 5 0 script_world = (Ok tt, w')
    /\ stdout w' = stdout script_world ++ lines
    /\ (print_late ∈ lines <-> 5 <> d)
    /\ (print_himself ∈ lines <-> 0%nat = 2%nat)
    /\ busy_till 2 w' = (Ok (5 + 1), w').
Proof.
  exact (C6_shave_flags script_world 2 0 5 _ _ _ eq_refl eq_refl eq_refl).
Defined.



(** C8. [run(0)] returns without a shave event and leaves every object of
    the heap, and the output, as they were. *)
Theorem C8_run_zero_changes_nothing (self : Village) (w : world) (fuel : nat) :
  exists w',
    run (S fuel) self 0 w = Some (Ok tt, w')
    /\ heap w' = heap w
    /\ stdout w' = stdout w
    /\ shaves_logged (stdout w') = shaves_logged (stdout w)
    /\ (sigint w = None -> w' = w).
Proof.
  unfold run. cbn [run_loop]. unfold checkpoint.
  destruct w as [h out [[| k] |]]; cbn; eexists; split_and!;
    try reflexivity; discriminate.
Qed.

(** ** A village without a barber *)

Lemma no_barber_filter self w :
  no_barber self w -> List.filter (barber_at (heap w)) (residents self) = [].
Proof.
  intros H. destruct (List.filter _ _) as [| y bs] eqn:Hf; [reflexivity |].
  assert (Hin : In y (List.filter (barber_at (heap w)) (residents self)))
    by (rewrite Hf; now left).
  apply filter_In in Hin as [Hin Hy]. apply list_elem_of_In in Hin.
  rewrite (H y Hin) in Hy. discriminate.
Qed.

Lemma lonely_allocated : allocated lonely_world (residents lonely_village).
Proof.
  intros r Hr. cbn in Hr. apply list_elem_of_singleton in Hr as ->. cbn. eauto.
Qed.

Lemma lonely_no_barber : no_barber lonely_village lonely_world.
Proof.
  intros r Hr. cbn in Hr. now apply list_elem_of_singleton in Hr as ->.
Qed.

(** C3, as the claim has it: without a barber the lookup fails with an
    error other than the one [min] raises on an empty sequence.  The
    village of one plain resident refutes it. *)
Lemma C3_counterexample :
  ~ (forall self w,
       allocated w (residents self) -> no_barber self w ->
       exists e w',
         get_next_free_barber self w = (Raise e, w')
         /\ e <> ValueError_min_empty).
Proof.
  intros H.
  destruct (H lonely_village lonely_world lonely_allocated lonely_no_barber)
    as (e & w' & Heq & Hne).
  apply Hne. vm_compute in Heq. congruence.
Qed.

(** C3, amended. Without a barber [get_next_free_barber] raises the
    [ValueError] of [min] on an empty sequence and changes nothing; [run]
    does not catch it, so a run that enters the loop ends with that
    error. *)
Theorem C3_no_barber_raises_min_error (self : Village) (w : world) :
  allocated w (residents self) ->
  no_barber self w ->
  get_next_free_barber self w = (Raise ValueError_min_empty, w)
  /\ forall count fuel,
       sigint w = None -> __range_done count 0 = false ->
       run (S fuel) self count w = Some (Raise ValueError_min_empty, w).
Proof.
  intros Hal Hno.
  pose proof (get_next_free_barber_no_barber self w Hal
                (no_barber_filter self w Hno)) as Hb.
  split; [exact Hb |].
  intros count fuel Hq Hrange. unfold run. cbn [run_loop].
  rewrite checkpoint_quiet, Hrange by assumption.
  unfold loop_body. rewrite bind_eq, stmt_quiet by assumption.
  destruct (residents self) as [| x l] eqn:Hres.
  - unfold get_next_shave. rewrite Hres. reflexivity.
  - rewrite (get_next_shave_first_min self w x l Hres) by now rewrite Hres.
    now rewrite bind_eq, stmt_quiet, Hb by assumption.
Qed.

Lemma C3_witness :
  get_next_free_barber lonely_village lonely_world =
    (Raise ValueError_min_empty, lonely_world)
  /\ forall count fuel,
       sigint lonely_world = None -> __range_done count 0 = false ->
       run (S fuel) lonely_village count lonely_world =
         Some (Raise ValueError_min_empty, lonely_world).
Proof.
  exact (C3_no_barber_raises_min_error lonely_village lonely_world
           lonely_allocated lonely_no_barber).
Defined.

(** C4. [get_next_shave] returns the resident with the smallest next shave
    time and [get_next_free_barber], when the village has a barber, the
    barber with the smallest [busy_till]; among equals the one that comes
    first in [residents] is returned.  Both leave the world as it is and
    depend on the heap only. *)
Theorem C4_selections_are_first_minima (self : Village) (w : world) :
  residents self <> [] ->
  allocated w (residents self) ->
  (exists r pre post d,
     get_next_shave self w = (Ok r, w)
     /\ residents self = pre ++ r :: post
     /\ _get_next_shave_time r w = (Ok d, w)
     /\ (forall x dx, x ∈ pre ->
           _get_next_shave_time x w = (Ok dx, w) -> d < dx)
     /\ (forall x dx, x ∈ post ->
           _get_next_shave_time x w = (Ok dx, w) -> d <= dx)
     /\ forall w2, heap w2 = heap w -> get_next_shave self w2 = (Ok r, w2))
  /\ ((exists b, b ∈ residents self /\ barber_at (heap w) b = true) ->
      exists b pre post t,
        get_next_free_barber self w = (Ok b, w)
        /\ residents self = pre ++ b :: post
        /\ busy_till b w = (Ok t, w)
        /\ (forall x tx, x ∈ pre -> busy_till x w = (Ok tx, w) -> t < tx)
        /\ (forall x tx, x ∈ post -> busy_till x w = (Ok tx, w) -> t <= tx)
        /\ forall w2, heap w2 = heap w ->
             get_next_free_barber self w2 = (Ok b, w2)).
Proof.
  intros Hne Hal. split.
  - destruct (residents self) as [| x l] eqn:Hres; [contradiction |].
    destruct (first_min_split (due_at (heap w)) l x)
      as (pre & post & Hsplit & Hpre & Hpost).
    set (r := first_min (due_at (heap w)) x l) in *.
    assert (Hkey : forall y dy, y ∈ x :: l ->
                     _get_next_shave_time y w = (Ok dy, w) ->
                     dy = due_at (heap w) y).
    { intros y dy Hy Hdy. rewrite get_next_shave_time_at in Hdy by now apply Hal.
      congruence. }
    exists r, pre, post, (due_at (heap w) r). split_and!.
    + apply get_next_shave_first_min; [exact Hres | now rewrite Hres].
    + exact Hsplit.
    + apply get_next_shave_time_at, Hal, first_min_elem.
    + intros y dy Hy Hdy. rewrite (Hkey y dy); [now apply Hpre | | exact Hdy].
      rewrite Hsplit. apply elem_of_app. now left.
    + intros y dy Hy Hdy. rewrite (Hkey y dy); [now apply Hpost | | exact Hdy].
      rewrite Hsplit. apply elem_of_app. right. now apply list_elem_of_further.
    + intros w2 Hw2. unfold r. rewrite <- Hw2.
      apply get_next_shave_first_min; [exact Hres |].
      rewrite Hres. intros y Hy. rewrite Hw2. now apply Hal.
  - intros Hbar.
    destruct (ready_lists self {| heap := heap w; stdout := []; sigint := None |})
      as (x & l & y & bs & _ & Hf); [now split_and! |]. cbn [heap] in Hf.
    destruct (first_min_split (busy_at (heap w)) bs y)
      as (pre' & post' & Hsplit' & Hpre & Hpost).
    set (b := first_min (busy_at (heap w)) y bs) in *.
    rewrite <- Hf in Hsplit'.
    destruct (filter_split_inv _ _ _ _ _ Hsplit')
      as (pre & post & Hsplit & Hfpre & Hfpost).
    assert (Hkey : forall z tz, busy_till z w = (Ok tz, w) ->
                     barber_at (heap w) z = true /\ tz = busy_at (heap w) z).
    { intros z tz Hz. unfold barber_at, busy_at.
      destruct (heap w !! z) as [[rr | rr bz] |] eqn:Hl; cbn.
      - unfold busy_till, barber_attrs in Hz.
        rewrite !bind_eq, (load_Some z _ w Hl) in Hz. discriminate.
      - rewrite (busy_till_Barber z rr bz w Hl) in Hz.
        split; [reflexivity | congruence].
      - unfold busy_till, barber_attrs in Hz.
        rewrite !bind_eq, (load_None z w Hl) in Hz. discriminate. }
    assert (Hb : barber_at (heap w) b = true).
    { assert (Hin : In b (List.filter (barber_at (heap w)) (residents self))).
      { rewrite Hf. apply list_elem_of_In, first_min_elem. }
      apply filter_In in Hin. tauto. }
    exists b, pre, post, (busy_at (heap w) b). split_and!.
    + now apply get_next_free_barber_first_min.
    + exact Hsplit.
    + now apply busy_till_at.
    + intros z tz Hz Htz. destruct (Hkey z tz Htz) as [Hzb ->].
      apply Hpre. rewrite <- Hfpre. apply list_elem_of_In, filter_In.
      split; [now apply list_elem_of_In | exact Hzb].
    + intros z tz Hz Htz. destruct (Hkey z tz Htz) as [Hzb ->].
      apply Hpost. rewrite <- Hfpost. apply list_elem_of_In, filter_In.
      split; [now apply list_elem_of_In | exact Hzb].
    + intros w2 Hw2. unfold b. rewrite <- Hw2.
      apply get_next_free_barber_first_min; [| now rewrite Hw2].
      intros z Hz. rewrite Hw2. now apply Hal.
Qed.

Lemma C4_witness :
  (exists r pre post d,
     get_next_shave script_village script_world = (Ok r, script_world)
     /\ residents script_village = pre ++ r :: post
     /\ _get_next_shave_time r script_world = (Ok d, script_world)
     /\ (forall x dx, x ∈ pre ->
           _get_next_shave_time x script_world = (Ok dx, script_world) ->
           d < dx)
     /\ (forall x dx, x ∈ post ->
           _get_next_shave_time x script_world = (Ok dx, script_world) ->
           d <= dx)
     /\ forall w2, heap w2 = heap script_world ->
          get_next_shave script_village w2 = (Ok r, w2))
  /\ ((exists b, b ∈ residents script_village
                 /\ barber_at (heap script_world) b = true) ->
      exists b pre post t,
        get_next_free_barber script_village script_world =
          (Ok b, script_world)
        /\ residents script_village = pre ++ b :: post
        /\ busy_till b script_world = (Ok t, script_world)
        /\ (forall x tx, x ∈ pre ->
              busy_till x script_world = (Ok tx, script_world) -> t < tx)
        /\ (forall x tx, x ∈ post ->
              busy_till x script_world = (Ok tx, script_world) -> t <= tx)
        /\ forall w2, heap w2 = heap script_world ->
             get_next_free_barber script_village w2 = (Ok b, w2)).
Proof.
  apply (C4_selections_are_first_minima script_village script_world).
  - discriminate.
  - exact (proj1 (proj2 script_ready)).
Defined.

Example twins_first_wins :
  get_next_shave {| residents := [1; 0; 3; 2]%nat |} twins_world =
    (Ok 1%nat, twins_world)
  /\ get_next_free_barber {| residents := [1; 0; 3; 2]%nat |} twins_world =
       (Ok 3%nat, twins_world).
Proof. split; reflexivity. Qed.



(** C7. The village of the script: [r1] is due at 2, [r2] at 4, [b1] at 6;
    the first iteration selects [r1] and [b1], shaves at time 2, leaves
    [b1] busy till 3 and [r1] last shaved at 3, and writes no late flag. *)
Theorem C7_first_iteration_of_the_script :
  main_village empty_world = (Ok script_village, script_world)
  /\ residents script_village = [0; 1; 2]%nat
  /\ _get_next_shave_time 0 script_world = (Ok 2, script_world)
  /\ _get_next_shave_time 1 script_world = (Ok 4, script_world)
  /\ _get_next_shave_time 2 script_world = (Ok 6, script_world)
  /\ busy_till 2 script_world = (Ok 0, script_world)
  /\ get_next_shave script_village script_world = (Ok 0%nat, script_world)
  /\ get_next_free_barber script_village script_world =
       (Ok 2%nat, script_world)
  /\ py_max 2 0 = 2
  /\ exists w1,
       loop_body script_village script_world = (Ok tt, w1)
       /\ loop_body script_village script_world = shave 2 2 0 script_world
       /\ busy_till 2 w1 = (Ok 3, w1)
       /\ heap w1 !! 0%nat =
            Some (Resident {| __name := "r1"; __beard_growth_time := 2;
                              __last_shave_time := 3 |})
       /\ stdout w1 = [print_shaves 2 "b1" "r1"; print_newline]
       /\ ~ print_late ∈ stdout w1
       /\ render (stdout w1) =
            "2: barber b1 shaves inhabitant r1." +:+ text print_newline.
Proof.
  split_and!; try reflexivity.
  eexists. split_and!; try reflexivity.
  intros H. apply list_elem_of_In in H. vm_compute in H.
  destruct H as [H | [H | []]]; discriminate.
Qed.

(** C9, as the claim has it: an interrupt makes [run] return in the world
    that some whole number of iterations leaves.  In the village of the
    script an interrupt at the last statement of the first [shave] leaves
    [b1] busy till 3 and [r1] never shaved. *)
Lemma C9_counterexample :
  ~ (forall self w k count,
       ready self w ->
       exists fuel w' n wn,
         run fuel self count (interrupt_at k w) = Some (Ok tt, w')
         /\ repeat_body n self w = (Ok tt, wn)
         /\ heap w' = heap wn
         /\ stdout w' = stdout wn).
Proof.
  intros H.
  destruct (H script_village script_world 9%nat 20 script_ready)
    as (fuel & w' & n & wn & Hrun & Hrep & Hheap & Hout).
  destruct fuel as [| fuel]; [discriminate |].
  assert (Hone : exists w1,
             run_loop 1 script_village 20 0 (interrupt_at 9 script_world) =
               Some (Raise KeyboardInterrupt, w1)
             /\ shaves_logged (stdout w1) = 1%nat
             /\ heap w1 !! 0%nat =
                  Some (Resident {| __name := "r1"; __beard_growth_time := 2;
                                    __last_shave_time := 0 |})).
  { eexists. split_and!; reflexivity. }
  destruct Hone as (w1 & Hone & Hlog1 & Hr1).
  unfold run in Hrun.
  rewrite (run_loop_fuel_mono _ _ _ _ _ _ Hone (S fuel) ltac:(lia)) in Hrun.
  injection Hrun as <-.
  destruct (run_loop_ready script_village (Z.of_nat n) ltac:(lia) n 0
              script_world script_ready ltac:(lia))
    as (wn' & Hrep' & _ & Hlog & _).
  rewrite Hrep in Hrep'. injection Hrep' as <-.
  rewrite <- Hout, Hlog1 in Hlog. cbn in Hlog. subst n.
  vm_compute in Hrep. injection Hrep as <-.
  rewrite Hheap in Hr1. discriminate.
Qed.

(** C9, amended. An interrupt that arrives while the loop of [run] is
    running ends the loop where it arrives, in the middle of an iteration
    or between two, and [run] returns normally; this holds for a bounded
    and for an unbounded [count]. *)
Theorem C9_interrupt_ends_run_normally (self : Village) (w : world)
    (k : nat) (count : Z) :
  sigint w = Some k ->
  allocated w (residents self) ->
  (exists b, b ∈ residents self /\ barber_at (heap w) b = true) ->
  exists w',
    forall fuel, (k < fuel)%nat -> run fuel self count w = Some (Ok tt, w').
Proof.
  destruct w as [h out sg]. cbn [sigint heap]. intros -> Hal Hbar.
  destruct (run_loop_interrupted self count (S k) k 0 h out ltac:(lia) Hal Hbar)
    as (res & w' & Hrun & Hres).
  exists w'. intros fuel Hfuel. unfold run.
  rewrite (run_loop_fuel_mono _ _ _ _ _ _ Hrun fuel ltac:(lia)).
  now destruct Hres as [-> | ->].
Qed.

(** An unbounded run of the script's village, interrupted at the last
    statement of the first [shave]. *)
Lemma C9_witness :
  exists w',
    forall fuel, (9 < fuel)%nat ->
      run fuel script_village (-1) (interrupt_at 9 script_world) =
        Some (Ok tt, w').
Proof.
  apply (C9_interrupt_ends_run_normally script_village
           (interrupt_at 9 script_world) 9 (-1)).
  - reflexivity.
  - exact (proj1 (proj2 script_ready)).
  - exact (proj2 (proj2 script_ready)).
Defined.


Lemma script_positive : positive script_village script_world.
Proof.
  intros r o Hr Ho. cbn in Hr. rewrite !elem_of_cons, elem_of_nil in Hr.
  destruct Hr as [-> | [-> | [-> | []]]]; cbn in Ho; injection Ho as <-; cbn;
    (split; [lia | intros rb bb Heq; try discriminate]).
  injection Heq as <- <-. cbn. lia.
Qed.

Example interrupted_mid_shave :
  exists w1,
    run 1 script_village 20 (interrupt_at 9 script_world) = Some (Ok tt, w1)
    /\ busy_till 2 w1 = (Ok 3, w1)
    /\ heap w1 !! 0%nat =
         Some (Resident {| __name := "r1"; __beard_growth_time := 2;
                           __last_shave_time := 0 |})
    /\ render (stdout w1) =
         "2: barber b1 shaves inhabitant r1." +:+ text print_newline.
Proof. eexists. split_and!; reflexivity. Qed.


(** [set_last_shave_time] itself takes any time, also an earlier one. *)
Example set_last_shave_time_unchecked :
  exists w',
    set_last_shave_time 0 (-5) script_world = (Ok tt, w')
    /\ _get_next_shave_time 0 w' = (Ok (-3), w').
Proof. eexists. split; reflexivity. Qed.

(** * Further properties of the village *)

(** ** What no method changes *)

Lemma grows_refl w : grows w w.
Proof. split; [apply same_static_refl | exists []; now rewrite app_nil_r]. Qed.

Lemma grows_trans w1 w2 w3 : grows w1 w2 -> grows w2 w3 -> grows w1 w3.
Proof.
  intros [Hs12 [o12 Ho12]] [Hs23 [o23 Ho23]]. split.
  - now apply (same_static_trans _ (heap w2)).
  - exists (o12 ++ o23). now rewrite Ho23, Ho12, app_assoc.
Qed.

Lemma framed_ret {A} (a : A) : framed (ret a).
Proof. intros w. apply grows_refl. Qed.

Lemma framed_raise {A} (e : exn) : framed (@raise A e).
Proof. intros w. apply grows_refl. Qed.

Lemma framed_bind {A B} (m : M A) (f : A -> M B) :
  framed m -> (forall a, framed (f a)) -> framed (bind m f).
Proof.
  intros Hm Hf w. rewrite bind_eq. specialize (Hm w).
  destruct (m w) as [[a | e] w1]; cbn [snd] in *; [| exact Hm].
  exact (grows_trans _ _ _ Hm (Hf a w1)).
Qed.

Lemma framed_checkpoint : framed checkpoint.
Proof.
  intros [h out [[| k] |]]; cbn; (split; [apply same_static_refl |]);
    exists []; now rewrite app_nil_r.
Qed.

Lemma framed_stmt {A} (m : M A) : framed m -> framed (stmt m).
Proof. intros Hm. apply framed_bind; [apply framed_checkpoint | now intros _]. Qed.

Lemma framed_load r : framed (load r).
Proof. intros w. unfold load. destruct (heap w !! r); apply grows_refl. Qed.

Lemma framed_print p : framed (print p).
Proof. intros w. split; [apply same_static_refl | now exists [p]]. Qed.

Lemma same_static_insert h r o o' :
  h !! r = Some o -> static o' = static o -> same_static h (<[r := o']> h).
Proof.
  intros Ho Hst x. destruct (decide (r = x)) as [<- | Hne].
  - rewrite list_lookup_insert_eq by now apply lookup_lt_Some in Ho.
    rewrite Ho. cbn. now rewrite Hst.
  - now rewrite list_lookup_insert_ne.
Qed.

Lemma framed_set_last_shave_time r time : framed (set_last_shave_time r time).
Proof.
  intros w. unfold set_last_shave_time. rewrite bind_eq. unfold load.
  destruct (heap w !! r) as [o |] eqn:Ho; cbn; [| apply grows_refl].
  split; cbn; [| exists []; now rewrite app_nil_r].
  apply (same_static_insert _ _ o); [exact Ho | apply static_with_last_shave_time].
Qed.

Lemma framed_set__busy_till r value : framed (set__busy_till r value).
Proof.
  intros w. unfold set__busy_till. rewrite bind_eq. unfold load.
  destruct (heap w !! r) as [[rr | rr bb] |] eqn:Ho; cbn; try apply grows_refl.
  split; cbn; [| exists []; now rewrite app_nil_r].
  now apply (same_static_insert _ _ (Barber rr bb)).
Qed.

Lemma framed_barber_attrs attr r : framed (barber_attrs attr r).
Proof.
  apply framed_bind; [apply framed_load |].
  intros [rr | rr bb]; [apply framed_raise | apply framed_ret].
Qed.

Lemma framed_busy_till r : framed (busy_till r).
Proof.
  apply framed_bind; [apply framed_barber_attrs | intros b; apply framed_ret].
Qed.

Lemma framed_get_next_shave_time r : framed (_get_next_shave_time r).
Proof. apply framed_bind; [apply framed_load | intros o; apply framed_ret]. Qed.

Lemma framed_str r : framed (__str__ r).
Proof. apply framed_bind; [apply framed_load | intros o; apply framed_ret]. Qed.

Lemma framed_min_scan {A} (key : A -> M Z) (l : list A) :
  (forall x, framed (key x)) ->
  forall best best_key, framed (min_scan key best best_key l).
Proof.
  intros Hkey. induction l as [| x l IH]; intros best best_key; cbn [min_scan].
  - apply framed_ret.
  - apply framed_bind; [apply Hkey |]. intros k. destruct (k <? best_key); apply IH.
Qed.

Lemma framed_py_min {A} (key : A -> M Z) (l : list A) :
  (forall x, framed (key x)) -> framed (py_min key l).
Proof.
  intros Hkey. destruct l as [| x l]; cbn [py_min]; [apply framed_raise |].
  apply framed_bind; [apply Hkey | intros k; now apply framed_min_scan].
Qed.

Lemma framed_barbers_of l : framed (barbers_of l).
Proof.
  induction l as [| r l IH]; cbn [barbers_of]; [apply framed_ret |].
  apply framed_bind; [apply framed_load | intros o].
  apply framed_bind; [exact IH | intros rest; apply framed_ret].
Qed.

(** Closes [framed] goals along the structure of the computation. *)
Ltac framed_tac :=
  repeat first
    [ apply framed_stmt
    | apply framed_barber_attrs
    | apply framed_busy_till
    | apply framed_str
    | apply framed_print
    | apply framed_ret
    | apply framed_raise
    | apply framed_get_next_shave_time
    | apply framed_set__busy_till
    | apply framed_set_last_shave_time
    | apply framed_barbers_of
    | apply framed_py_min; intros ?
    | match goal with |- framed (if ?c then _ else _) => destruct c end
    | apply framed_bind; [| intros ?] ].

Lemma framed_shave self time resident : framed (shave self time resident).
Proof. unfold shave. framed_tac. Qed.

Lemma framed_loop_body self : framed (loop_body self).
Proof.
  unfold loop_body, get_next_shave, get_next_free_barber.
  repeat first [ apply framed_shave | progress framed_tac ].
Qed.

Lemma run_loop_grows self count : forall fuel i w x,
  run_loop fuel self count i w = Some x -> grows w (snd x).
Proof.
  induction fuel as [| fuel IH]; intros i w x H; [discriminate |].
  cbn [run_loop] in H. pose proof (framed_checkpoint w) as Hc.
  destruct (checkpoint w) as [[[] | e] w1]; cbn [snd] in Hc.
  - destruct (__range_done count i); [now injection H as <- |].
    pose proof (framed_loop_body self w1) as Hb.
    destruct (loop_body self w1) as [[[] | e] w2]; cbn [snd] in Hb.
    + exact (grows_trans _ _ _ (grows_trans _ _ _ Hc Hb) (IH _ _ _ H)).
    + injection H as <-. exact (grows_trans _ _ _ Hc Hb).
  - now injection H as <-.
Qed.

Lemma same_static_length h h' : same_static h h' -> length h' = length h.
Proof.
  intros H.
  destruct (Nat.lt_trichotomy (length h) (length h')) as [Hlt | [Heq | Hgt]].
  - destruct (lookup_lt_is_Some_2 h' (length h) Hlt) as [o Ho].
    specialize (H (length h)). rewrite Ho, lookup_ge_None_2 in H by lia.
    discriminate.
  - now symmetry.
  - destruct (lookup_lt_is_Some_2 h (length h') Hgt) as [o Ho].
    specialize (H (length h')). rewrite Ho, lookup_ge_None_2 in H by lia.
    discriminate.
Qed.

Lemma same_static_lookup h h' x o :
  same_static h h' -> h !! x = Some o ->
  exists o', h' !! x = Some o' /\ static o' = static o.
Proof.
  intros H Ho. specialize (H x). rewrite Ho in H.
  destruct (h' !! x) as [o' |]; [| discriminate].
  exists o'. split; [reflexivity |]. cbn in H. congruence.
Qed.

(** [run], however it ends, allocates and frees nothing, keeps the name,
    beard growth time, class and shave duration of every object, and only
    appends to standard output. *)
Theorem run_keeps_objects (self : Village) (fuel : nat) (count : Z)
    (w : world) (res : result unit) (w' : world) :
  run fuel self count w = Some (res, w') ->
  length (heap w') = length (heap w)
  /\ (forall x o, heap w !! x = Some o ->
        exists o', heap w' !! x = Some o' /\ static o' = static o)
  /\ (exists out, stdout w' = stdout w ++ out)
  /\ (allocated w (residents self) -> allocated w' (residents self))
  /\ (forall x, barber_at (heap w') x = barber_at (heap w) x).
Proof.
  intros Hrun.
  assert (Hg : grows w w').
  { unfold run in Hrun.
    destruct (run_loop fuel self count 0 w) as [[r1 w1] |] eqn:Hloop;
      [| discriminate].
    pose proof (run_loop_grows _ _ _ _ _ _ Hloop) as Hg. cbn [snd] in Hg.
    destruct r1 as [[] | []]; injection Hrun as _ <-; exact Hg. }
  destruct Hg as [Hst Hout]. split_and!.
  - now apply same_static_length.
  - intros x o. now apply same_static_lookup.
  - exact Hout.
  - intros Hal r Hr. eapply same_static_is_Some; eauto.
  - intros x. now apply same_static_barber_at.
Qed.

Lemma run_keeps_objects_witness :
  let w' := {| heap := [Resident {| __name := "r1"; __beard_growth_time := 2;
                                    __last_shave_time := 3 |};
                        Resident {| __name := "r2"; __beard_growth_time := 4;
                                    __last_shave_time := 0 |};
                        Barber {| __name := "b1"; __beard_growth_time := 6;
                                  __last_shave_time := 0 |}
                               {| __shave_time := 1; __busy_till := 3 |}];
               stdout := [print_shaves 2 "b1" "r1"; print_newline];
               sigint := None |} in
  length (heap w') = length (heap script_world)
  /\ (forall x o, heap script_world !! x = Some o ->
        exists o', heap w' !! x = Some o' /\ static o' = static o)
  /\ (exists out, stdout w' = stdout script_world ++ out)
  /\ (allocated script_world (residents script_village) ->
      allocated w' (residents script_village))
  /\ (forall x, barber_at (heap w') x = barber_at (heap script_world) x).
Proof.
  intros w'.
  exact (run_keeps_objects script_village 2 1 script_world (Ok tt) w' eq_refl).
Defined.

(** Without an interrupt, the unbounded run of a village with a barber
    never returns. *)
Theorem run_unbounded_never_returns (self : Village) (w : world) :
  ready self w -> forall fuel, run fuel self (-1) w = None.
Proof.
  intros Hready fuel. unfold run.
  enough (H : forall i, run_loop fuel self (-1) i w = None) by now rewrite H.
  revert w Hready. induction fuel as [| fuel IH]; intros w Hready i;
    [reflexivity |].
  cbn [run_loop]. rewrite checkpoint_quiet by apply Hready.
  destruct (loop_body_ready self w Hready)
    as (r & b & o & rb & bb & w1 & _ & _ & _ & _ & _ & _ & Hbody & Hready1).
  cbn. rewrite Hbody. now apply IH.
Qed.

Lemma run_unbounded_never_returns_witness :
  run 1000 script_village (-1) script_world = None.
Proof.
  exact (run_unbounded_never_returns script_village script_world script_ready
           1000%nat).
Defined.

(** A negative [count] other than [-1] is no request for an unbounded run:
    [run] returns at once, whatever the village, with no shave. *)
Theorem run_negative_count_does_nothing (self : Village) (w : world)
    (count : Z) (fuel : nat) :
  count < -1 ->
  exists w',
    run (S fuel) self count w = Some (Ok tt, w')
    /\ heap w' = heap w
    /\ stdout w' = stdout w.
Proof.
  intros Hcount. unfold run. cbn [run_loop]. unfold checkpoint, __range_done.
  destruct (Z.eqb_spec count (-1)); [lia |].
  destruct (Z.geb_spec 0 count); [| lia].
  destruct w as [h out [[| k] |]]; cbn; eexists; split_and!; reflexivity.
Qed.

Lemma run_negative_count_does_nothing_witness :
  exists w',
    run 1 script_village (-2) script_world = Some (Ok tt, w')
    /\ heap w' = heap script_world
    /\ stdout w' = stdout script_world.
Proof.
  apply (run_negative_count_does_nothing script_village script_world (-2) 0).
  lia.
Defined.

(** ** The clock of the simulation *)

Lemma first_min_le {A} (key : A -> Z) best (l : list A) y :
  y ∈ best :: l -> key (first_min key best l) <= key y.
Proof.
  destruct (first_min_split key l best) as (pre & post & -> & Hpre & Hpost).
  intros Hy. apply elem_of_app in Hy as [Hy | Hy].
  - specialize (Hpre y Hy). lia.
  - apply elem_of_cons in Hy as [-> | Hy]; [lia | now apply Hpost].
Qed.

Lemma logged_times_app out out' :
  logged_times (out ++ out') = logged_times out ++ logged_times out'.
Proof. apply flat_map_app. Qed.

Lemma logged_times_shave_lines time self resident rb o :
  logged_times (shave_lines time self resident rb o) = [time].
Proof.
  unfold shave_lines.
  now destruct (Nat.eqb resident self), (negb (time =? due o)).
Qed.

Lemma next_time_shaved self w r b o rb bb :
  get_next_shave self w = (Ok r, w) ->
  get_next_free_barber self w = (Ok b, w) ->
  heap w !! r = Some o ->
  heap w !! b = Some (Barber rb bb) ->
  next_time self w = Z.max (due o) (__busy_till bb).
Proof.
  intros Hr Hb Ho Hbo. unfold next_time, due_at, busy_at.
  now rewrite Hr, Hb, Ho, Hbo, py_max_max.
Qed.

Lemma next_time_mono self w w' :
  ready self w ->
  same_static (heap w) (heap w') ->
  advanced (heap w) (heap w') ->
  next_time self w <= next_time self w'.
Proof.
  intros Hready Hst Hadv.
  assert (Hready' : allocated w' (residents self)).
  { intros r Hr. eapply same_static_is_Some; [exact Hst | now apply Hready]. }
  destruct (ready_lists self w Hready) as (x & l & y & bs & Hres & Hf).
  pose proof Hf as Hf'. rewrite <- (same_static_filter _ _ _ Hst) in Hf'.
  unfold next_time.
  rewrite (get_next_shave_first_min self w x l Hres) by apply Hready.
  rewrite (get_next_shave_first_min self w' x l Hres) by exact Hready'.
  rewrite (get_next_free_barber_first_min self w y bs) by (apply Hready || exact Hf).
  rewrite (get_next_free_barber_first_min self w' y bs) by assumption.
  rewrite !py_max_max.
  set (r := first_min (due_at (heap w)) x l).
  set (r' := first_min (due_at (heap w')) x l).
  set (b := first_min (busy_at (heap w)) y bs).
  set (b' := first_min (busy_at (heap w')) y bs).
  assert (Hkeys : forall z, is_Some (heap w !! z) ->
            due_at (heap w) z <= due_at (heap w') z
            /\ busy_at (heap w) z <= busy_at (heap w') z).
  { intros z [o Ho].
    destruct (same_static_lookup _ _ _ _ Hst Ho) as (o' & Ho' & Hso).
    destruct (Hadv z o o' Ho Ho') as [Hlast Hbusy].
    unfold due_at, busy_at. rewrite Ho, Ho'. cbn. unfold due, last_of in *.
    unfold static in Hso.
    assert (__beard_growth_time (attrs o') = __beard_growth_time (attrs o))
      by congruence.
    destruct o, o'; cbn in *; try discriminate; lia. }
  assert (Hr' : r' ∈ x :: l) by apply first_min_elem.
  assert (Hb' : b' ∈ y :: bs) by apply first_min_elem.
  pose proof (first_min_le (due_at (heap w)) x l r' Hr') as H1.
  pose proof (first_min_le (busy_at (heap w)) y bs b' Hb') as H2.
  fold r in H1. fold b in H2.
  assert (Hr'a : is_Some (heap w !! r')).
  { apply Hready. now rewrite Hres. }
  assert (Hb'a : is_Some (heap w !! b')).
  { apply Hready. rewrite <- Hf in Hb'.
    apply list_elem_of_In, filter_In in Hb' as [Hb' _].
    now apply list_elem_of_In. }
  destruct (Hkeys r' Hr'a), (Hkeys b' Hb'a). lia.
Qed.

Lemma loop_body_logs_next_time self w :
  ready self w -> positive self w ->
  exists w',
    loop_body self w = (Ok tt, w')
    /\ ready self w' /\ positive self w'
    /\ same_static (heap w) (heap w')
    /\ advanced (heap w) (heap w')
    /\ logged_times (stdout w') = logged_times (stdout w) ++ [next_time self w].
Proof.
  intros Hready Hpos.
  destruct (loop_body_ready self w Hready)
    as (r & b & o & rb & bb & w' & Hr & Hb & Hrin & Hbin & Hsh & _ & Hbody & Hready').
  pose proof (shaved_same_static _ _ _ _ _ _ _ Hsh) as Hst.
  pose proof Hsh as (Ho & Hbo & Hw').
  destruct (shaved_advances _ _ _ _ _ _ _ Hsh) as (Hadv & _).
  { now apply (Hpos r o). }
  { now apply (proj2 (Hpos b _ Hbin Hbo) rb bb). }
  exists w'. split_and!; try assumption.
  - now apply (positive_same_static self w).
  - rewrite (next_time_shaved self w r b o rb bb) by assumption.
    rewrite Hw'. cbn [stdout].
    now rewrite logged_times_app, logged_times_shave_lines.
Qed.

Lemma repeat_body_times self : forall (n : nat) w,
  ready self w -> positive self w ->
  exists w' times,
    repeat_body n self w = (Ok tt, w')
    /\ logged_times (stdout w') = logged_times (stdout w) ++ times
    /\ length times = n
    /\ StronglySorted Z.le times
    /\ Forall (fun t => next_time self w <= t) times.
Proof.
  induction n as [| n IH]; intros w Hready Hpos.
  - exists w, []. split_and!; try constructor. now rewrite app_nil_r.
  - destruct (loop_body_logs_next_time self w Hready Hpos)
      as (w1 & Hbody & Hready1 & Hpos1 & Hst & Hadv & Hlog).
    destruct (IH w1 Hready1 Hpos1) as (w' & times & Hrep & Hlog' & Hlen & Hsort & Hall).
    pose proof (next_time_mono self w w1 Hready Hst Hadv) as Hmono.
    assert (Hall' : Forall (fun t => next_time self w <= t) times).
    { eapply Forall_impl; [exact Hall |]. cbn. intros t Ht. lia. }
    exists w', (next_time self w :: times). split_and!.
    + cbn [repeat_body]. now rewrite bind_eq, Hbody.
    + rewrite Hlog', Hlog, <- app_assoc. reflexivity.
    + cbn. now rewrite Hlen.
    + constructor; [exact Hsort | exact Hall'].
    + constructor; [lia | exact Hall'].
Qed.

(** With strictly positive durations the shave events of a run are
    written in the order of their times: the clock of the simulation never
    goes back, also with several barbers. *)
Theorem run_logs_in_time_order (self : Village) (w : world) (count : Z) :
  ready self w ->
  positive self w ->
  0 <= count ->
  exists w' times,
    (forall fuel, (Z.to_nat count < fuel)%nat ->
       run fuel self count w = Some (Ok tt, w'))
    /\ logged_times (stdout w') = logged_times (stdout w) ++ times
    /\ length times = Z.to_nat count
    /\ StronglySorted Z.le times.
Proof.
  intros Hready Hpos Hcount.
  destruct (repeat_body_times self (Z.to_nat count) w Hready Hpos)
    as (w' & times & Hrep & Hlog & Hlen & Hsort & _).
  destruct (run_loop_ready self count ltac:(lia) (Z.to_nat count) 0 w Hready
              ltac:(lia)) as (w'' & Hrep' & _ & _ & Hrun).
  rewrite Hrep in Hrep'. injection Hrep' as <-.
  exists w', times. split_and!; try assumption.
  intros fuel Hfuel. unfold run. now rewrite (Hrun fuel Hfuel).
Qed.

Lemma run_logs_in_time_order_witness :
  exists w' times,
    (forall fuel, (Z.to_nat 20 < fuel)%nat ->
       run fuel script_village 20 script_world = Some (Ok tt, w'))
    /\ logged_times (stdout w') = logged_times (stdout script_world) ++ times
    /\ length times = Z.to_nat 20
    /\ StronglySorted Z.le times.
Proof.
  apply (run_logs_in_time_order script_village script_world 20).
  - exact script_ready.
  - exact script_positive.
  - lia.
Defined.

(** In the loop no shave starts before the beard is due nor before the
    barber is free, and the barber is reported late exactly when he is
    still busy at the time the beard is due. *)
Theorem iteration_is_never_early (self : Village) (w : world) :
  ready self w ->
  exists resident barber due_time free_time time lines w',
    get_next_shave self w = (Ok resident, w)
    /\ get_next_free_barber self w = (Ok barber, w)
    /\ _get_next_shave_time resident w = (Ok due_time, w)
    /\ busy_till barber w = (Ok free_time, w)
    /\ loop_body self w = shave barber time resident w
    /\ loop_body self w = (Ok tt, w')
    /\ due_time <= time
    /\ free_time <= time
    /\ (time = due_time \/ time = free_time)
    /\ stdout w' = stdout w ++ lines
    /\ logged_times lines = [time]
    /\ (print_late ∈ lines <-> due_time < free_time)
    /\ (print_himself ∈ lines <-> resident = barber).
Proof.
  intros Hready.
  destruct (loop_body_ready self w Hready)
    as (r & b & o & rb & bb & w' & Hr & Hb & _ & _ & Hsh & Hbody & Hok & _).
  pose proof Hsh as (Ho & Hbo & Hw').
  set (time := Z.max (due o) (__busy_till bb)) in *.
  exists r, b, (due o), (__busy_till bb), time,
    (shave_lines time b r rb o), w'.
  split_and!; try assumption; try lia.
  - now apply get_next_shave_time_Some.
  - now apply (busy_till_Barber b rb bb).
  - now rewrite Hw'.
  - apply logged_times_shave_lines.
  - unfold shave_lines.
    destruct (Nat.eqb r b), (Z.eqb_spec time (due o)); cbn [negb app];
      rewrite ?elem_of_cons, ?elem_of_nil; split; intros H;
      try lia; try tauto; firstorder congruence.
  - unfold shave_lines.
    destruct (Nat.eqb_spec r b), (negb (time =? due o)); cbn [app];
      rewrite ?elem_of_cons, ?elem_of_nil; split; intros H;
      try tauto; firstorder congruence.
Qed.

Lemma iteration_is_never_early_witness :
  exists resident barber due_time free_time time lines w',
    get_next_shave script_village script_world = (Ok resident, script_world)
    /\ get_next_free_barber script_village script_world =
         (Ok barber, script_world)
    /\ _get_next_shave_time resident script_world = (Ok due_time, script_world)
    /\ busy_till barber script_world = (Ok free_time, script_world)
    /\ loop_body script_village script_world =
         shave barber time resident script_world
    /\ loop_body script_village script_world = (Ok tt, w')
    /\ due_time <= time
    /\ free_time <= time
    /\ (time = due_time \/ time = free_time)
    /\ stdout w' = stdout script_world ++ lines
    /\ logged_times lines = [time]
    /\ (print_late ∈ lines <-> due_time < free_time)
    /\ (print_himself ∈ lines <-> resident = barber).
Proof.
  exact (iteration_is_never_early script_village script_world script_ready).
Defined.

(** ** Building a village *)

Lemma allocated_snoc w w' (l : list ref) r :
  (forall x o, heap w !! x = Some o -> heap w' !! x = Some o) ->
  is_Some (heap w' !! r) ->
  allocated w l -> allocated w' (l ++ [r]).
Proof.
  intros Hkeep Hr Hal x Hx. apply elem_of_app in Hx as [Hx | Hx].
  - destruct (Hal x Hx) as [o Ho]. exists o. now apply Hkeep.
  - now apply list_elem_of_singleton in Hx as ->.
Qed.

(** A new plain resident is a fresh object, due after one beard growth
    time; the objects there were stay as they are, the village that takes
    him in stays well formed, and it has a barber no more than before. *)
Theorem new_resident_joins_village (self : Village) (w : world)
    (name : string) (beard_growth_time : Z) :
  allocated w (residents self) ->
  exists r w1,
    Resident__init__ name beard_growth_time w = (Ok r, w1)
    /\ heap w !! r = None
    /\ (forall x o, heap w !! x = Some o -> heap w1 !! x = Some o)
    /\ stdout w1 = stdout w
    /\ _get_next_shave_time r w1 = (Ok beard_growth_time, w1)
    /\ busy_till r w1 = (Raise (AttributeError "busy_till"), w1)
    /\ residents (add_resident self r) = residents self ++ [r]
    /\ allocated w1 (residents (add_resident self r))
    /\ (no_barber self w -> no_barber (add_resident self r) w1).
Proof.
  intros Hal.
  set (o := Resident {| __name := name;
                        __beard_growth_time := beard_growth_time;
                        __last_shave_time := 0 |}).
  set (w1 := {| heap := heap w ++ [o]; stdout := stdout w; sigint := sigint w |}).
  assert (Hnew : heap w1 !! length (heap w) = Some o).
  { cbn. rewrite lookup_app_r by lia. now rewrite Nat.sub_diag. }
  assert (Hkeep : forall x ox, heap w !! x = Some ox -> heap w1 !! x = Some ox).
  { intros x ox Hx. cbn. rewrite lookup_app_l; [exact Hx |].
    now apply lookup_lt_Some in Hx. }
  exists (length (heap w)), w1. split_and!; try reflexivity.
  - now apply lookup_ge_None_2.
  - exact Hkeep.
  - now rewrite (get_next_shave_time_Some _ o w1 Hnew).
  - unfold busy_till, barber_attrs. now rewrite !bind_eq, (load_Some _ o w1 Hnew).
  - apply (allocated_snoc w); eauto.
  - intros Hno x Hx. cbn in Hx. apply elem_of_app in Hx as [Hx | Hx].
    + destruct (Hal x Hx) as [ox Hox]. specialize (Hno x Hx).
      unfold barber_at in *. now rewrite (Hkeep x ox Hox), <- Hox.
    + apply list_elem_of_singleton in Hx as ->. unfold barber_at.
      now rewrite Hnew.
Qed.

Lemma new_resident_joins_village_witness :
  exists r w1,
    Resident__init__ "r3" 5 script_world = (Ok r, w1)
    /\ heap script_world !! r = None
    /\ (forall x o, heap script_world !! x = Some o -> heap w1 !! x = Some o)
    /\ stdout w1 = stdout script_world
    /\ _get_next_shave_time r w1 = (Ok 5, w1)
    /\ busy_till r w1 = (Raise (AttributeError "busy_till"), w1)
    /\ residents (add_resident script_village r) =
         residents script_village ++ [r]
    /\ allocated w1 (residents (add_resident script_village r))
    /\ (no_barber script_village script_world ->
        no_barber (add_resident script_village r) w1).
Proof.
  exact (new_resident_joins_village script_village script_world "r3" 5
           (proj1 (proj2 script_ready))).
Defined.






(** ** The errors of [run] *)







(** ** What an interrupt can leave behind *)

Ltac istep_in k :=
  try rewrite bind_eq; destruct k as [| k];
  [ rewrite stmt_now; split; [reflexivity | cbn [heap]; auto]
  | rewrite stmt_later ].

Lemma shave_interrupted_state self time resident rb bb o h out k :
  h !! self = Some (Barber rb bb) ->
  h !! resident = Some o ->
  interrupted_in
    (fun w' => heap w' = shave_heap h time self resident rb bb
               /\ stdout w' = out ++ shave_lines time self resident rb o
               /\ exists k', sigint w' = Some k' /\ (k' <= k)%nat)
    (fun w' => heap w' = h
               \/ heap w' =
                    <[self := Barber rb {| __shave_time := __shave_time bb;
                                           __busy_till :=
                                             time + __shave_time bb |}]> h)
    (shave self time resident {| heap := h; stdout := out; sigint := Some k |}).
Proof.
  intros Hs Hr.
  assert (Hs1 : forall x, <[self := x]> h !! self = Some x).
  { intros x. apply list_lookup_insert_eq. now apply lookup_lt_Some in Hs. }
  assert (Hr1 : forall x, resident <> self -> <[self := x]> h !! resident = Some o).
  { intros x Hne. rewrite list_lookup_insert_ne by congruence. exact Hr. }
  unfold shave_heap, shave_lines, shave. cbv zeta.
  rewrite bind_eq, (barber_attrs_Barber _ self rb bb) by assumption.
  destruct (negb (time =? due o)) eqn:Hlate;
    (destruct (Nat.eqb_spec resident self) as [-> | Hne];
     [ rewrite Hs in Hr; injection Hr as <-; rewrite Hs1
     | rewrite Hr1 by assumption ]).
  all: do 6 (istep_in k; repeat mstep; rewrite ?Nat.eqb_refl, ?Hlate;
             repeat mstep).
  all: cbn [attrs app]; rewrite <- ?app_assoc; cbn [app].
  all: split_and!; [reflexivity | reflexivity |].
  all: exists k; split; [reflexivity | lia].
Qed.

Lemma loop_body_interrupted_state self h out k :
  let w := {| heap := h; stdout := out; sigint := None |} in
  ready self w ->
  exists w1,
    loop_body self w = (Ok tt, w1)
    /\ ready self w1
    /\ interrupted_in
         (fun w' => heap w' = heap w1 /\ stdout w' = stdout w1
                    /\ exists k', sigint w' = Some k' /\ (k' < k)%nat)
         (fun w' => heap w' = h \/ half_shaved self w (heap w'))
         (loop_body self {| heap := h; stdout := out; sigint := Some k |}).
Proof.
  intros w Hready.
  destruct (loop_body_ready self w Hready)
    as (r & b & o & rb & bb & w1 & Hr & Hb & Hrin & Hbin & Hsh & _ & Hbody & Hready1).
  pose proof Hsh as (Ho & Hbo & Hw1). cbn [heap stdout w] in Ho, Hbo, Hw1.
  exists w1. split_and!; [exact Hbody | exact Hready1 |].
  destruct (ready_lists self w Hready) as (x & l & y & bs & Hres & Hf).
  cbn [heap w] in Hf.
  pose proof Hready as (_ & Hal & _).
  rewrite (get_next_shave_first_min self w x l Hres Hal) in Hr.
  rewrite (get_next_free_barber_first_min self w y bs Hal Hf) in Hb.
  injection Hr as Hr. injection Hb as Hb. cbn [heap w] in Hr, Hb.
  unfold loop_body.
  istep_in k. rewrite (get_next_shave_first_min self _ x l) by assumption.
  cbn [heap]. rewrite Hr.
  istep_in k. rewrite (get_next_free_barber_first_min self _ y bs) by assumption.
  cbn [heap]. rewrite Hb.
  istep_in k. rewrite bind_eq, (get_next_shave_time_Some r o) by assumption.
  rewrite bind_eq, (busy_till_Barber b rb bb) by assumption. cbv [ret].
  rewrite py_max_max.
  pose proof (shave_interrupted_state b (Z.max (due o) (__busy_till bb)) r
                rb bb o h out k Hbo Ho) as Hshave.
  destruct (shave _ _ _ _) as [[[] | e] w']; cbn [interrupted_in] in *.
  - destruct Hshave as (Hh & Hout & k' & Hk' & Hle). rewrite Hw1. cbn [heap stdout].
    split_and!; [exact Hh | exact Hout |]. exists k'. split; [exact Hk' | lia].
  - destruct Hshave as (-> & [Hh | Hh]); (split; [reflexivity |]);
      [now left | right].
    exists r, b, (due o), rb, bb. split_and!.
    + rewrite <- Hr. now apply get_next_shave_first_min.
    + rewrite <- Hb. now apply get_next_free_barber_first_min.
    + now apply get_next_shave_time_Some.
    + exact Hbo.
    + exact Hh.
Qed.

Lemma run_loop_interrupted_state self count : forall fuel k i h out,
  (k < fuel)%nat ->
  ready self {| heap := h; stdout := out; sigint := None |} ->
  exists res w' n wn,
    run_loop fuel self count i {| heap := h; stdout := out; sigint := Some k |}
      = Some (res, w')
    /\ (res = Ok tt \/ res = Raise KeyboardInterrupt)
    /\ repeat_body n self {| heap := h; stdout := out; sigint := None |}
         = (Ok tt, wn)
    /\ (heap w' = heap wn \/ half_shaved self wn (heap w')).
Proof.
  induction fuel as [| fuel IH]; intros k i h out Hk Hready; [lia |].
  cbn [run_loop].
  destruct k as [| k]; cbn [checkpoint sigint heap stdout].
  { eexists _, _, 0%nat, _. split_and!; [reflexivity | now right | reflexivity |].
    now left. }
  destruct (__range_done count i).
  { eexists _, _, 0%nat, _. split_and!; [reflexivity | now left | reflexivity |].
    now left. }
  destruct (loop_body_interrupted_state self h out k Hready)
    as (w1 & Hbody & Hready1 & Hint).
  destruct (loop_body self {| heap := h; stdout := out; sigint := Some k |})
    as [[[] | e] w2]; cbn [interrupted_in] in Hint.
  - destruct Hint as (Hh & Hout & k' & Hk' & Hlt).
    destruct w2 as [h2 out2 sg2]. cbn [heap stdout sigint] in *. subst sg2.
    assert (Hw1 : w1 = {| heap := h2; stdout := out2; sigint := None |}).
    { destruct w1 as [h1 out1 sg1]. cbn in Hh, Hout. subst h2 out2.
      destruct Hready1 as (Hq & _). cbn in Hq. now subst sg1. }
    subst w1.
    destruct (IH k' (i + 1) h2 out2 ltac:(lia) Hready1)
      as (res & w' & n & wn & Hrun & Hres & Hrep & Hstate).
    exists res, w', (S n), wn. split_and!; try assumption.
    cbn [repeat_body]. now rewrite bind_eq, Hbody.
  - destruct Hint as (-> & Hstate).
    eexists _, w2, 0%nat, _. split_and!; [reflexivity | now right | reflexivity |].
    exact Hstate.
Qed.

(** An interrupt leaves the heap as a whole number of iterations leaves
    it, or with one shave half done on top of that: the barber's
    [busy_till] moved, the resident's last shave time not.  Nothing else
    can be left behind. *)
Theorem interrupt_leaves_at_most_half_a_shave (self : Village) (w : world)
    (k : nat) (count : Z) :
  ready self w ->
  exists w' n wn,
    (forall fuel, (k < fuel)%nat ->
       run fuel self count (interrupt_at k w) = Some (Ok tt, w'))
    /\ repeat_body n self w = (Ok tt, wn)
    /\ (heap w' = heap wn \/ half_shaved self wn (heap w')).
Proof.
  intros Hready. destruct w as [h out sg].
  assert (sg = None) as -> by apply Hready.
  destruct (run_loop_interrupted_state self count (S k) k 0 h out ltac:(lia)
              Hready) as (res & w' & n & wn & Hrun & Hres & Hrep & Hstate).
  exists w', n, wn. split_and!; [| exact Hrep | exact Hstate].
  intros fuel Hfuel. unfold run, interrupt_at. cbn [heap stdout].
  rewrite (run_loop_fuel_mono _ _ _ _ _ _ Hrun fuel ltac:(lia)).
  now destruct Hres as [-> | ->].
Qed.

Lemma interrupt_leaves_at_most_half_a_shave_witness :
  exists w' n wn,
    (forall fuel, (9 < fuel)%nat ->
       run fuel script_village (-1) (interrupt_at 9 script_world) =
         Some (Ok tt, w'))
    /\ repeat_body n script_village script_world = (Ok tt, wn)
    /\ (heap w' = heap wn \/ half_shaved script_village wn (heap w')).
Proof.
  exact (interrupt_leaves_at_most_half_a_shave script_village script_world 9
           (-1) script_ready).
Defined.

(** ** Nobody waits for ever *)












(** ** Runs one after the other *)

(** Without an interrupt, [run(m)] followed by [run(n)] leaves the village
    as the single [run(m + n)] does. *)
Theorem run_in_two_batches (self : Village) (w : world) (m n : Z) :
  ready self w ->
  0 <= m ->
  0 <= n ->
  exists w1 w2,
    (forall fuel, (Z.to_nat m < fuel)%nat ->
       run fuel self m w = Some (Ok tt, w1))
    /\ (forall fuel, (Z.to_nat n < fuel)%nat ->
          run fuel self n w1 = Some (Ok tt, w2))
    /\ (forall fuel, (Z.to_nat (m + n) < fuel)%nat ->
          run fuel self (m + n) w = Some (Ok tt, w2)).
Proof.
  intros Hready Hm Hn.
  destruct (run_loop_ready self m ltac:(lia) (Z.to_nat m) 0 w Hready ltac:(lia))
    as (w1 & Hrep1 & Hready1 & _ & Hrun1).
  destruct (run_loop_ready self n ltac:(lia) (Z.to_nat n) 0 w1 Hready1 ltac:(lia))
    as (w2 & Hrep2 & _ & _ & Hrun2).
  destruct (run_loop_ready self (m + n) ltac:(lia) (Z.to_nat (m + n)) 0 w Hready
              ltac:(lia)) as (w3 & Hrep3 & _ & _ & Hrun3).
  assert (w3 = w2) as ->.
  { rewrite Z2Nat.inj_add, repeat_body_add, bind_eq, Hrep1, Hrep2 in Hrep3
      by assumption. congruence. }
  exists w1, w2. split_and!; intros fuel Hfuel; unfold run.
  - now rewrite (Hrun1 fuel Hfuel).
  - now rewrite (Hrun2 fuel Hfuel).
  - now rewrite (Hrun3 fuel Hfuel).
Qed.

Lemma run_in_two_batches_witness :
  exists w1 w2,
    (forall fuel, (Z.to_nat 12 < fuel)%nat ->
       run fuel script_village 12 script_world = Some (Ok tt, w1))
    /\ (forall fuel, (Z.to_nat 8 < fuel)%nat ->
          run fuel script_village 8 w1 = Some (Ok tt, w2))
    /\ (forall fuel, (Z.to_nat (12 + 8) < fuel)%nat ->
          run fuel script_village (12 + 8) script_world = Some (Ok tt, w2)).
Proof.
  apply (run_in_two_batches script_village script_world 12 8).
  - exact script_ready.
  - lia.
  - lia.
Defined.
